(** * fix_scene.py: scene setup for Infinigen environments in Isaac Sim

    A shallow embedding of [tool_scripts/fix_scene.py] and the properties of
    its scene classifier/mutator, transform snapshot, verifier and script
    driver.

    The USD stage is a tree of prims.  A prim carries a name, a type, a set
    of attributes and a list of applied API schemas.  The script never
    renames, retypes, adds or removes prims: it only authors attributes and
    applies API schemas, so those two are grouped in [Props]. *)

From Stdlib Require Import QArith Qabs.
From stdpp Require Import gmap strings list pretty.

Local Open Scope string_scope.
Local Open Scope list_scope.

(** ** Python values used by the script *)

(** [needle in hay] on Python strings. *)
Fixpoint contains (needle hay : string) : bool :=
  String.prefix needle hay ||
  match hay with
  | EmptyString => false
  | String _ rest => contains needle rest
  end.

(** [any(m in name for m in markers)] *)
Definition any_in (markers : list string) (name : string) : bool :=
  existsb (λ m, contains m name) markers.
Global Arguments any_in : simpl never.

(** Attribute values: booleans, tokens, and numeric tuples (Gf.Vec3d,
    Gf.Quatd), whose components are modelled as rationals. *)
Inductive Value :=
| VBool (b : bool)
| VToken (s : string)
| VVec (v : list Q).

Fixpoint vec_eqb (u v : list Q) : bool :=
  match u, v with
  | [], [] => true
  | x :: u', y :: v' => Qeq_bool x y && vec_eqb u' v'
  | _, _ => false
  end.

(** Python [==] on attribute values. *)
Definition Value_eqb (a b : Value) : bool :=
  match a, b with
  | VBool x, VBool y => Bool.eqb x y
  | VToken x, VToken y => String.eqb x y
  | VVec x, VVec y => vec_eqb x y
  | _, _ => false
  end.

(** ** The scene graph *)

(** Prim types, as far as [IsA] and [GetTypeName] distinguish them in the
    script: meshes, other geometric primitives, transform groups, the rest. *)
Inductive TypeName := Xform | Mesh | Gprim | Other.

Global Instance TypeName_eq_dec : EqDecision TypeName.
Proof. solve_decision. Defined.

(** [prim.IsA(UsdGeom.Gprim)]: a mesh is a geometric primitive. *)
Definition IsA_Gprim (t : TypeName) : bool :=
  match t with Mesh | Gprim => true | _ => false end.

(** [prim.IsA(UsdGeom.Mesh)] *)
Definition IsA_Mesh (t : TypeName) : bool :=
  match t with Mesh => true | _ => false end.

(** The API schemas (capability markers) the script applies. *)
Inductive API :=
| CollisionAPI
| MeshCollisionAPI
| PhysxTriangleMeshCollisionAPI
| RigidBodyAPI.

Global Instance API_eq_dec : EqDecision API.
Proof. solve_decision. Defined.

(** The mutable part of a prim: authored attributes and applied schemas
    (the [apiSchemas] list, in order of application). *)
Record Props := mkProps {
  attrs : gmap string Value;
  apiSchemas : list API
}.

#[local] Unset Elimination Schemes.
Inductive Prim :=
| mkPrim (name : string) (typeName : TypeName) (props : Props)
         (children : list Prim).
#[local] Set Elimination Schemes.

Definition GetName (t : Prim) : string :=
  match t with mkPrim n _ _ _ => n end.
Definition GetTypeName (t : Prim) : TypeName :=
  match t with mkPrim _ k _ _ => k end.
Definition GetProps (t : Prim) : Props :=
  match t with mkPrim _ _ pr _ => pr end.
Definition GetChildren (t : Prim) : list Prim :=
  match t with mkPrim _ _ _ cs => cs end.

(** A stage is its pseudo-root prim. *)
Definition Stage := Prim.

(** A [Usd.Prim] handle designates a position in the stage: the child
    indices from the pseudo-root. *)
Definition Handle := list nat.

(** An [Sdf.Path]: the prim names from the pseudo-root, ["/Environment"]
    being [["Environment"]]. *)
Definition SdfPath := list string.

(** The prim a handle designates, if any. *)
Fixpoint get (t : Prim) (p : Handle) : option Prim :=
  match p with
  | [] => Some t
  | i :: p' =>
      match GetChildren t !! i with
      | Some c => get c p'
      | None => None
      end
  end.

Definition props_at (s : Stage) (p : Handle) : option Props :=
  GetProps <$> get s p.
Definition name_at (s : Stage) (p : Handle) : option string :=
  GetName <$> get s p.
Definition type_at (s : Stage) (p : Handle) : option TypeName :=
  GetTypeName <$> get s p.

(** In-place edit of the properties of the prim at [p]. *)
Fixpoint update (p : Handle) (f : Props → Props) (t : Prim) : Prim :=
  match t with
  | mkPrim n k pr cs =>
      match p with
      | [] => mkPrim n k (f pr) cs
      | i :: p' => mkPrim n k pr (alter (update p' f) i cs)
      end
  end.

(** Pre-order enumeration of the handles of [cs], the children of a prim,
    numbered from [i]. *)
Fixpoint children_range (range : Prim → list Handle) (i : nat)
    (cs : list Prim) : list Handle :=
  match cs with
  | [] => []
  | c :: cs' => (cons i <$> range c) ++ children_range range (S i) cs'
  end.

(** Pre-order enumeration of a prim and its descendants, relative to it. *)
Fixpoint subtree_range (t : Prim) : list Handle :=
  match t with
  | mkPrim _ _ _ cs => [] :: children_range subtree_range 0 cs
  end.

(** [Usd.PrimRange(prim)]: the prim and its descendants, depth first, the
    stage holding the prims a traversal visits.  The range of an invalid
    prim is empty. *)
Definition PrimRange (s : Stage) (prim : option Handle) : list Handle :=
  match prim with
  | Some r =>
      match get s r with
      | Some t => (app r) <$> subtree_range t
      | None => []
      end
  | None => []
  end.

(** [stage.GetPrimAtPath(path)]; [None] is the invalid prim. *)
Fixpoint GetPrimAtPath (t : Prim) (path : SdfPath) : option Handle :=
  match path with
  | [] => Some []
  | n :: rest =>
      match list_find (λ c, GetName c = n) (GetChildren t) with
      | Some (i, c) => cons i <$> GetPrimAtPath c rest
      | None => None
      end
  end.

(** [stage.GetPseudoRoot()] *)
Definition GetPseudoRoot : Handle := [].

(** [prim.GetPath()] of a valid prim. *)
Fixpoint GetPath (t : Prim) (p : Handle) : SdfPath :=
  match p with
  | [] => []
  | i :: p' =>
      match GetChildren t !! i with
      | Some c => GetName c :: GetPath c p'
      | None => []
      end
  end.

(** ** Attribute and schema access on the stage *)

(** [prim.HasAPI(api)] *)
Definition HasAPI (s : Stage) (prim : Handle) (api : API) : bool :=
  match props_at s prim with
  | Some pr => bool_decide (api ∈ apiSchemas pr)
  | None => false
  end.

(** [api.Apply(prim)]: appends the schema to the prim's [apiSchemas]. *)
Definition add_schema (api : API) (pr : Props) : Props :=
  mkProps (attrs pr) (apiSchemas pr ++ [api]).
Definition Apply (api : API) (prim : Handle) (s : Stage) : Stage :=
  update prim (add_schema api) s.

(** [prim.GetAttribute(k).Set(v)], also [Create...Attr(v)]. *)
Definition set_attr (k : string) (v : Value) (pr : Props) : Props :=
  mkProps (<[k:=v]> (attrs pr)) (apiSchemas pr).
Definition SetAttr (prim : Handle) (k : string) (v : Value) (s : Stage)
    : Stage :=
  update prim (set_attr k v) s.

(** [prim.HasAttribute(k)] *)
Definition HasAttribute (s : Stage) (prim : Handle) (k : string) : bool :=
  match props_at s prim with
  | Some pr => bool_decide (is_Some (attrs pr !! k))
  | None => false
  end.

(** [prim.GetAttribute(k).Get()]; [None] is Python's [None]. *)
Definition GetAttr (s : Stage) (prim : Handle) (k : string) : option Value :=
  props_at s prim ≫= λ pr, attrs pr !! k.

(** ** Module constants *)

Definition ESC : string := String (Ascii.ascii_of_nat 27) "".
Definition RED : string := ESC +:+ "[91m".
Definition YELLOW : string := ESC +:+ "[93m".
Definition GREEN : string := ESC +:+ "[92m".
Definition RESET : string := ESC +:+ "[0m".

Definition fine_collider_types : list string := ["skirt"; "_wall"; "_floor"].
Definition rigid_body_types : list string := ["Table"; "Chair"; "Rug"].

(** ** add_colliders *)

(** The body of the loop of [add_colliders], for one [desc_prim]. *)
Definition add_colliders_step (approximation_type : string) (s : Stage)
    (desc_prim : Handle) : Stage :=
  match type_at s desc_prim with
  | None => s
  | Some ty =>
      let s :=
        if IsA_Gprim ty then
          let s :=
            if negb (HasAPI s desc_prim CollisionAPI)
            then Apply CollisionAPI desc_prim s
            else s in
          SetAttr desc_prim "physics:collisionEnabled" (VBool true) s
        else s in
      if IsA_Mesh ty then
        if String.eqb approximation_type "triangleMesh" then
          if negb (HasAPI s desc_prim PhysxTriangleMeshCollisionAPI)
          then Apply PhysxTriangleMeshCollisionAPI desc_prim s
          else s
        else
          let s :=
            if negb (HasAPI s desc_prim MeshCollisionAPI)
            then Apply MeshCollisionAPI desc_prim s
            else s in
          SetAttr desc_prim "physics:approximation"
            (VToken approximation_type) s
      else s
  end.

Definition add_colliders (root_prim : Handle) (approximation_type : string)
    (s : Stage) : Stage :=
  foldl (add_colliders_step approximation_type) s
        (PrimRange s (Some root_prim)).

(** ** Helpers of infinigen_sdg_utils *)

(** The prim a root path argument designates: the pseudo-root for [None]. *)
Definition root_prim_of (s : Stage) (root_path : option SdfPath)
    : option Handle :=
  match root_path with
  | None => Some GetPseudoRoot
  | Some path => GetPrimAtPath s path
  end.

(** Modelled from the spec: [infinigen_sdg_utils.find_matching_prims] is not
    part of the source.  The spec gives [find_nodes(markers, root,
    kind_filter) -> list_of_nodes]: the nodes under [root] whose name
    contains one of the markers, restricted to the given kind if any. *)
Definition find_matching_prims (match_strings : list string)
    (root_path : option SdfPath) (prim_type : option TypeName) (s : Stage)
    : list Handle :=
  List.filter
    (λ prim,
       match get s prim with
       | Some t =>
           any_in match_strings (GetName t) &&
           match prim_type with
           | None => true
           | Some ty => bool_decide (GetTypeName t = ty)
           end
       | None => false
       end)
    (PrimRange s (root_prim_of s root_path)).

(** Modelled from the spec: [infinigen_sdg_utils.hide_matching_prims] is not
    part of the source.  The spec gives [hide_nodes(markers, root)]: the
    nodes under [root] whose name contains one of the markers are hidden by
    setting their visibility attribute to "invisible", and no node is
    removed.  [hide_nodes] has no kind filter, so the kind the script passes
    in its third argument does not restrict the nodes that are hidden. *)
Definition hide_matching_prims (match_strings : list string)
    (root_path : option SdfPath) (prim_type : option TypeName) (s : Stage)
    : Stage :=
  foldl (λ s prim, SetAttr prim "visibility" (VToken "invisible") s) s
        (find_matching_prims match_strings root_path None s).

(** Modelled from the spec: [infinigen_sdg_utils.add_rigid_body_dynamics] is
    not part of the source.  The spec gives [attach_rigid_body(node)], and
    capability markers are idempotent-additive: an existing marker is
    detected before attaching. *)
Definition add_rigid_body_dynamics (prim : Handle) (s : Stage) : Stage :=
  if negb (HasAPI s prim RigidBodyAPI) then Apply RigidBodyAPI prim s else s.

(** ** modify_environment *)

(** The body of the main loop of [modify_environment], for one [prim]. *)
Definition modify_step (coarse_approximation_type : string) (s : Stage)
    (prim : Handle) : Stage :=
  match get s prim with
  | None => s
  | Some t =>
      if IsA_Mesh (GetTypeName t) then
        let prim_name := GetName t in
        let collider_approx :=
          if any_in fine_collider_types prim_name
          then "triangleMesh"
          else coarse_approximation_type in
        let s := add_colliders prim collider_approx s in
        if any_in rigid_body_types prim_name
        then add_rigid_body_dynamics prim s
        else s
      else s
  end.

Definition modify_environment (root_path : option SdfPath)
    (coarse_approximation_type : string) (hide_top_walls : bool)
    (s : Stage) : Stage :=
  let ceiling_light_meshes :=
    find_matching_prims ["001_SPLIT_GLA"] root_path (Some Xform) s in
  let s :=
    foldl (λ s light_mesh,
             SetAttr light_mesh "visibility" (VToken "invisible") s)
          s ceiling_light_meshes in
  let s := hide_matching_prims ["001_SPLIT_GLA"] root_path (Some Xform) s in
  let s :=
    if hide_top_walls
    then hide_matching_prims ["_exterior"; "_ceiling"] root_path None s
    else s in
  let prim := root_prim_of s root_path in
  foldl (modify_step coarse_approximation_type) s (PrimRange s prim).

(** What [modify_environment] prints, in order. *)
Definition modify_environment_prints (root_path : option SdfPath)
    (hide_top_walls : bool) (s : Stage) : list string :=
  ["Fixing ceiling lights..."] ++
  (if hide_top_walls then ["Hiding ceiling and exterior walls..."] else []) ++
  mjoin ((λ prim,
     match get s prim with
     | Some t =>
         if IsA_Mesh (GetTypeName t) then
           (if any_in fine_collider_types (GetName t)
            then ["Adding triangle mesh collider to " +:+ GetName t]
            else []) ++
           (if any_in rigid_body_types (GetName t)
            then ["Adding rigid body dynamics to " +:+ GetName t]
            else [])
         else []
     | None => []
     end) <$> PrimRange s (root_prim_of s root_path)).

(** ** Transform snapshots *)

(** The record [capture_transforms] stores per prim. *)
Record TransformData := mkTransformData {
  translate : option Value;
  rotation : option Value;
  scale : option Value;
  orient : option Value
}.

(** A snapshot is a Python dict from path strings to records, kept in
    insertion order. *)
Definition Snapshot := list (string * TransformData).

(** [key in d], [d[key]] *)
Fixpoint dict_get (key : string) (d : Snapshot) : option TransformData :=
  match d with
  | [] => None
  | (k, v) :: d' => if String.eqb k key then Some v else dict_get key d'
  end.

(** [d[key] = v] *)
Fixpoint dict_set (key : string) (v : TransformData) (d : Snapshot)
    : Snapshot :=
  match d with
  | [] => [(key, v)]
  | (k, v') :: d' =>
      if String.eqb k key then (key, v) :: d' else (k, v') :: dict_set key v d'
  end.

(** [str(path)] *)
Definition path_str (path : SdfPath) : string :=
  match path with
  | [] => "/"
  | _ => foldr (λ n acc, "/" +:+ n +:+ acc) "" path
  end.

(** The body of the loop of [capture_transforms], for one [prim]. *)
Definition capture_step (s : Stage) (transforms : Snapshot) (prim : Handle)
    : Snapshot :=
  if HasAttribute s prim "xformOp:translate" then
    let transform_data := {|
      translate := GetAttr s prim "xformOp:translate";
      rotation :=
        if HasAttribute s prim "xformOp:rotateXYZ"
        then GetAttr s prim "xformOp:rotateXYZ" else None;
      scale :=
        if HasAttribute s prim "xformOp:scale"
        then GetAttr s prim "xformOp:scale" else None;
      orient :=
        if HasAttribute s prim "xformOp:orient"
        then GetAttr s prim "xformOp:orient" else None
    |} in
    dict_set (path_str (GetPath s prim)) transform_data transforms
  else transforms.

Definition capture_transforms (s : Stage) (root_path : SdfPath) : Snapshot :=
  let transforms := [] in
  let root_prim := GetPrimAtPath s root_path in
  match root_prim with
  | None => transforms
  | Some _ => foldl (capture_step s) transforms (PrimRange s root_prim)
  end.

(** ** The verifier *)

(** The Python values [transforms_are_equal] is applied to: [None], a
    number, or a snapshot record (a dict). *)
Inductive PyVal :=
| PyNone
| PyFloat (x : Q)
| PyDict (d : TransformData).

Definition option_eqb {A} (eqb : A → A → bool) (a b : option A) : bool :=
  match a, b with
  | None, None => true
  | Some x, Some y => eqb x y
  | _, _ => false
  end.

(** [==] on two snapshot records: same keys, so field by field. *)
Definition TransformData_eqb (a b : TransformData) : bool :=
  option_eqb Value_eqb (translate a) (translate b) &&
  option_eqb Value_eqb (rotation a) (rotation b) &&
  option_eqb Value_eqb (scale a) (scale b) &&
  option_eqb Value_eqb (orient a) (orient b).

(** Python [==] *)
Definition py_eq (a b : PyVal) : bool :=
  match a, b with
  | PyNone, PyNone => true
  | PyFloat x, PyFloat y => Qeq_bool x y
  | PyDict x, PyDict y => TransformData_eqb x y
  | _, _ => false
  end.

(** [v is None] *)
Definition is_PyNone (v : PyVal) : bool :=
  match v with PyNone => true | _ => false end.

(** [hasattr(v, '__sub__')]: numbers subtract, dicts do not. *)
Definition hasattr_sub (v : PyVal) : bool :=
  match v with PyFloat _ => true | _ => false end.

(** [a - b]; [None] when Python raises TypeError. *)
Definition py_sub (a b : PyVal) : option Q :=
  match a, b with
  | PyFloat x, PyFloat y => Some (x - y)%Q
  | _, _ => None
  end.

Definition Qlt_bool (x y : Q) : bool := negb (Qle_bool y x).

Definition transforms_are_equal (transform1 transform2 : PyVal)
    (tolerance : Q) : bool :=
  let try_block : option bool :=
    if is_PyNone transform1 || is_PyNone transform2
    then Some (py_eq transform1 transform2)
    else if hasattr_sub transform1 then
      match py_sub transform1 transform2 with
      | Some d => Some (Qlt_bool (Qabs d) tolerance)
      | None => None
      end
    else Some (py_eq transform1 transform2) in
  match try_block with
  | Some r => r
  | None => py_eq transform1 transform2
  end.

(** The state of the loop of [verify_positions_unchanged]. *)
Record VerifyState := mkVerifyState {
  printed : list string;
  changes_detected : nat;
  total_checked : nat
}.

Definition verify_step (after_transforms : Snapshot) (st : VerifyState)
    (item : string * TransformData) : VerifyState :=
  let '(prim_path, before_transform) := item in
  match dict_get prim_path after_transforms with
  | Some after_transform =>
      let total_checked := total_checked st + 1 in
      if negb (transforms_are_equal (PyDict before_transform)
                 (PyDict after_transform) (1 # 1000000))
      then mkVerifyState
             (printed st ++
                [YELLOW +:+ "Position changed for: " +:+ prim_path +:+ RESET])
             (changes_detected st + 1) total_checked
      else mkVerifyState (printed st) (changes_detected st) total_checked
  | None => st
  end.

Definition verify_loop (before_transforms after_transforms : Snapshot)
    : VerifyState :=
  foldl (verify_step after_transforms) (mkVerifyState [] 0 0)
        before_transforms.

(** [verify_positions_unchanged]: the lines printed and the value returned.
    Its [stage] argument is not used. *)
Definition verify_positions_unchanged
    (before_transforms after_transforms : Snapshot) : list string * bool :=
  let st := verify_loop before_transforms after_transforms in
  let summary :=
    if Nat.eqb (changes_detected st) 0
    then " Position verification: All " +:+ pretty (total_checked st) +:+
         " object positions preserved"
    else " Position verification: " +:+ pretty (changes_detected st) +:+
         "/" +:+ pretty (total_checked st) +:+ " objects moved" in
  (printed st ++ [summary], Nat.eqb (changes_detected st) 0).

(** ** The script: console, engine and exits *)

(** What the script does to the outside, in order. *)
Inductive Event :=
| Printed (line : string)
| SimulationAppStart
| NewStage
| LoadEnv (usd_path : string) (prim_path : SdfPath) (remove_existing : bool)
| AppUpdate
| ResolveScaleIssues
| AppClose.

(** The outside the script runs against. *)
Record Env := mkEnv {
  (** [os.path.exists] *)
  path_exists : string → bool;
  (** the stage open when the application has started *)
  startup_stage : Stage;
  (** the stage [omni.usd.get_context().new_stage()] opens *)
  new_stage : Stage;
  (** [infinigen_utils.load_env] on a file and the open stage: the stage
      with the environment loaded, or the error raised and the stage left *)
  load_env : string → Stage → Stage + string * Stage;
  (** [simulation_app.update()] *)
  app_update : Stage → Stage;
  (** [infinigen_utils.resolve_scale_issues_with_metrics_assembler] *)
  resolve_scale_issues : Stage → Stage;
  (** [time.time()] when the viewer loop is entered *)
  start_time : Q;
  (** [time.time()] in each iteration of the viewer loop, until the window
      is closed *)
  frames : list Q
}.

Record World := mkWorld {
  stage : Stage;
  defaultPrim : option Handle;
  trace : list Event
}.

(** How a call ends: it returns, raises an [Exception], or [sys.exit]s. *)
Inductive Outcome (A : Type) :=
| Return (a : A)
| Raise (e : string)
| Exit (status : nat).
Arguments Return {A} a.
Arguments Raise {A} e.
Arguments Exit {A} status.

Definition M (A : Type) : Type := World → Outcome A * World.

Global Instance M_ret : MRet M := λ A a w, (Return a, w).
Global Instance M_bind : MBind M := λ A B f m w,
  match m w with
  | (Return a, w') => f a w'
  | (Raise e, w') => (Raise e, w')
  | (Exit n, w') => (Exit n, w')
  end.

Definition emit (e : Event) : M unit := λ w,
  (Return tt, mkWorld (stage w) (defaultPrim w) (trace w ++ [e])).
Definition print (line : string) : M unit := emit (Printed line).
Definition print_all (lines : list string) : M unit := λ w,
  (Return tt,
   mkWorld (stage w) (defaultPrim w) (trace w ++ (Printed <$> lines))).
Definition get_stage : M Stage := λ w, (Return (stage w), w).
Definition on_stage (f : Stage → Stage) : M unit := λ w,
  (Return tt, mkWorld (f (stage w)) (defaultPrim w) (trace w)).
Definition sys_exit {A} (status : nat) : M A := λ w, (Exit status, w).

(** [try: body except Exception as e: handler e] *)
Definition try_except {A} (body : M A) (handler : string → M A) : M A := λ w,
  match body w with
  | (Raise e, w') => handler e w'
  | r => r
  end.

Definition call_new_stage (env : Env) : M unit := λ w,
  (Return tt, mkWorld (new_stage env) None (trace w ++ [NewStage])).

Definition call_load_env (env : Env) (usd_path : string) (prim_path : SdfPath)
    (remove_existing : bool) : M unit := λ w,
  let tr := trace w ++ [LoadEnv usd_path prim_path remove_existing] in
  match load_env env usd_path (stage w) with
  | inl s' => (Return tt, mkWorld s' (defaultPrim w) tr)
  | inr (e, s') => (Raise e, mkWorld s' (defaultPrim w) tr)
  end.

Definition call_update (env : Env) : M unit :=
  emit AppUpdate ;; on_stage (app_update env).

Definition call_resolve_scale_issues (env : Env) : M unit :=
  emit ResolveScaleIssues ;; on_stage (resolve_scale_issues env).

(** [stage.SetDefaultPrim(prim)] *)
Definition set_default_prim (prim : Handle) : M unit := λ w,
  (Return tt, mkWorld (stage w) (Some prim) (trace w)).

Definition setup_default_prim (prim_path : SdfPath) : M bool :=
  stg ← get_stage;
  let prim := GetPrimAtPath stg prim_path in
  match prim with
  | None =>
      print (YELLOW +:+ "Warning: Prim at path '" +:+ path_str prim_path +:+
             "' is not valid. Cannot set as default prim." +:+ RESET) ;;
      mret false
  | Some h =>
      set_default_prim h ;;
      print ("Default prim set to: " +:+ path_str prim_path) ;;
      mret true
  end.

Definition py_bool (b : bool) : string := if b then "True" else "False".

(** The line [setup_default_prim] prints on stage [s]. *)
Definition default_prim_line (s : Stage) (prim_path : SdfPath) : string :=
  match GetPrimAtPath s prim_path with
  | None =>
      YELLOW +:+ "Warning: Prim at path '" +:+ path_str prim_path +:+
      "' is not valid. Cannot set as default prim." +:+ RESET
  | Some _ => "Default prim set to: " +:+ path_str prim_path
  end.

(** The events with which [setup_infinigen_scene] ends, after the lines of
    the verifier. *)
Definition setup_epilogue : list Event :=
  [Printed "Environment setup complete.";
   Printed "Resolving scaling issues...";
   ResolveScaleIssues;
   Printed "Scaling issues resolved";
   Printed "All setup completed";
   Printed "=== Environment Setup Complete! ==="].

(** Steps 7 to 9 of [setup_infinigen_scene]: verification and what follows
    it, given the snapshot taken in step 5. *)
Definition setup_verify_and_finish (env : Env) (initial_transforms : Snapshot)
    : M unit :=
  print "Verifying object positions..." ;;
  stg ← get_stage;
  let final_transforms := capture_transforms stg ["Environment"] in
  let '(lines, position_preserved) :=
    verify_positions_unchanged initial_transforms final_transforms in
  print_all lines ;;
  print "Environment setup complete." ;;
  print "Resolving scaling issues..." ;;
  call_resolve_scale_issues env ;;
  print "Scaling issues resolved" ;;
  print "All setup completed" ;;
  print "=== Environment Setup Complete! ===".

Definition setup_infinigen_scene (env : Env) (usd_file_path : string)
    (coarse_approximation_type : string) (hide_top_walls : bool) : M unit :=
  print "=== Starting Infinigen Environment Setup ===" ;;
  print ("File: " +:+ usd_file_path) ;;
  print ("Coarse approximation: " +:+ coarse_approximation_type) ;;
  print ("Hide walls: " +:+ py_bool hide_top_walls) ;;
  print "Creating new stage..." ;;
  call_new_stage env ;;
  print ("Loading environment: " +:+ usd_file_path) ;;
  try_except
    (call_load_env env usd_file_path ["Environment"] true ;;
     print ("Environment successfully loaded to: /Environment" +:+ RESET))
    (λ e, print (RED +:+ "Loading failed: " +:+ e +:+ RESET)) ;;
  print "Setting /Environment as default prim..." ;;
  setup_default_prim ["Environment"] ;;
  call_update env ;;
  stg ← get_stage;
  print "Capturing initial object positions..." ;;
  let initial_transforms := capture_transforms stg ["Environment"] in
  print ("Captured " +:+ pretty (length initial_transforms) +:+
         " object transforms") ;;
  print "Setting up environment..." ;;
  print_all (modify_environment_prints (Some ["Environment"]) hide_top_walls
               stg) ;;
  on_stage (modify_environment (Some ["Environment"])
              coarse_approximation_type hide_top_walls) ;;
  setup_verify_and_finish env initial_transforms.

(** The command line, once parsed. *)
Record Args := mkArgs {
  usd_path : string;
  coarse_approximation : string;
  hide_walls : bool
}.

Definition print_interval : Q := 2.

(** The viewer loop, over the clock readings of its iterations. *)
Fixpoint viewer_loop (env : Env) (last_print_time : Q) (times : list Q)
    : M unit :=
  match times with
  | [] => mret tt
  | current_time :: times' =>
      last_print_time ←
        (if Qle_bool print_interval (current_time - last_print_time)
         then
           print (GREEN +:+ "=== PLEASE COLLECTED AND SAVE THE CURRENT SCENE BEFORE CLOSING THE WINDOW! ===" +:+ RESET) ;;
           print (GREEN +:+ "=== PLEASE SELECT FLAT COLLECTION AND GROUP BY MDL ===" +:+ RESET) ;;
           print "" ;;
           mret current_time
         else mret last_print_time);
      call_update env ;;
      viewer_loop env last_print_time times'
  end.

(** The main program. *)
Definition main (env : Env) (args : Args) : M unit :=
  try_except
    (let usd_file_path := usd_path args in
     print ("Using file path: " +:+ usd_file_path) ;;
     (if negb (path_exists env usd_file_path) then
        print ("File not found: " +:+ usd_file_path) ;;
        print "Please check the path and try again." ;;
        sys_exit 1
      else mret tt) ;;
     setup_infinigen_scene env usd_file_path (coarse_approximation args)
       (hide_walls args))
    (λ e,
       print (" Error occurred: " +:+ e) ;;
       print "Please check your arguments and try again." ;;
       sys_exit 1) ;;
  viewer_loop env (start_time env) (frames env) ;;
  print "=== EXIT PROGRAM ===" ;;
  emit AppClose.

(** The module from top to bottom: the arguments are parsed, the simulation
    application is started, then the main program runs. *)
Definition script (env : Env) (args : Args) : M unit :=
  emit SimulationAppStart ;;
  main env args.

Definition exit_status {A} (o : Outcome A) : nat :=
  match o with
  | Return _ => 0
  | Raise _ => 1
  | Exit n => n
  end.

(** A run of the script: its exit status and what it did. *)
Definition run_script (env : Env) (args : Args) : nat * list Event :=
  let '(o, w) := script env args (mkWorld (startup_stage env) None []) in
  (exit_status o, trace w).

(** ** Reasoning principles for the tree *)

Section Prim_induction.
Variable P : Prim → Prop.
Hypothesis Hnode : ∀ n k pr cs, Forall P cs → P (mkPrim n k pr cs).

Fixpoint Prim_tree_ind (t : Prim) : P t :=
  match t with
  | mkPrim n k pr cs =>
      Hnode n k pr cs
        ((fix go (cs : list Prim) : Forall P cs :=
            match cs with
            | [] => Forall_nil_2 P
            | c :: cs' => Forall_cons_2 P c cs' (Prim_tree_ind c) (go cs')
            end) cs)
  end.
End Prim_induction.

(** The part of a stage the script never writes: names, types, hierarchy. *)
Fixpoint skel (t : Prim) : Prim :=
  match t with
  | mkPrim n k _ cs => mkPrim n k (mkProps ∅ []) (skel <$> cs)
  end.

(** ** The mutator, prim by prim

    Every write of the script is one of two edits of a prim's properties:
    applying a schema unless it is applied already, or setting an
    attribute.  What a pass does to one prim is a list of such edits. *)

Inductive Op :=
| OApply (api : API)
| OSet (k : string) (v : Value).

Definition run_op (pr : Props) (o : Op) : Props :=
  match o with
  | OApply api =>
      if bool_decide (api ∈ apiSchemas pr) then pr else add_schema api pr
  | OSet k v => set_attr k v pr
  end.

Definition run (ops : list Op) (pr : Props) : Props := foldl run_op pr ops.

Definition apply_ops (p : Handle) (ops : list Op) (s : Stage) : Stage :=
  update p (run ops) s.

(** The value the edits leave in attribute [k], if they set it. *)
Fixpoint last_set (k : string) (ops : list Op) : option Value :=
  match ops with
  | [] => None
  | o :: ops' =>
      match last_set k ops' with
      | Some v => Some v
      | None =>
          match o with
          | OSet k' v => if decide (k' = k) then Some v else None
          | OApply _ => None
          end
      end
  end.

(** The edits of one iteration of [add_colliders] on a prim of type [ty]. *)
Definition collide_ops (approximation_type : string)
    (ty : option TypeName) : list Op :=
  match ty with
  | None => []
  | Some ty =>
      (if IsA_Gprim ty
       then [OApply CollisionAPI;
             OSet "physics:collisionEnabled" (VBool true)]
       else []) ++
      (if IsA_Mesh ty then
         if String.eqb approximation_type "triangleMesh"
         then [OApply PhysxTriangleMeshCollisionAPI]
         else [OApply MeshCollisionAPI;
               OSet "physics:approximation" (VToken approximation_type)]
       else [])
  end.

Definition only_at (p q : Handle) (ops : list Op) : list Op :=
  if decide (p = q) then ops else [].

(** The edits of [add_colliders root_prim approximation_type] on [p]. *)
Definition add_colliders_ops (root_prim : Handle)
    (approximation_type : string) (s : Stage) (p : Handle) : list Op :=
  PrimRange s (Some root_prim) ≫= λ q,
    only_at p q (collide_ops approximation_type (type_at s q)).

(** The edits on [p] of setting to "invisible" the prims that
    [find_matching_prims] returns. *)
Definition hide_ops (match_strings : list string)
    (root_path : option SdfPath) (prim_type : option TypeName) (s : Stage)
    (p : Handle) : list Op :=
  find_matching_prims match_strings root_path prim_type s ≫= λ q,
    only_at p q [OSet "visibility" (VToken "invisible")].

Definition is_mesh_at (s : Stage) (p : Handle) : bool :=
  match type_at s p with Some ty => IsA_Mesh ty | None => false end.

Definition name_has (markers : list string) (s : Stage) (p : Handle) : bool :=
  match name_at s p with Some n => any_in markers n | None => false end.

(** [collider_approx] in the iteration of [modify_environment] on [q]. *)
Definition collider_approx_at (coarse_approximation_type : string)
    (s : Stage) (q : Handle) : string :=
  if name_has fine_collider_types s q
  then "triangleMesh"
  else coarse_approximation_type.

(** The edits of the iteration of [modify_environment] on [q], on [p]. *)
Definition modify_step_ops (coarse_approximation_type : string) (q : Handle)
    (s : Stage) (p : Handle) : list Op :=
  if is_mesh_at s q then
    add_colliders_ops q (collider_approx_at coarse_approximation_type s q) s p
    ++ (if name_has rigid_body_types s q
        then only_at p q [OApply RigidBodyAPI]
        else [])
  else [].

(** The edits of the main loop of [modify_environment] on [p]. *)
Definition modify_loop_ops (root_path : option SdfPath)
    (coarse_approximation_type : string) (s : Stage) (p : Handle) : list Op :=
  PrimRange s (root_prim_of s root_path) ≫= λ q,
    modify_step_ops coarse_approximation_type q s p.

(** The edits of [modify_environment] on [p]. *)
Definition modify_ops (root_path : option SdfPath)
    (coarse_approximation_type : string) (hide_top_walls : bool)
    (s : Stage) (p : Handle) : list Op :=
  hide_ops ["001_SPLIT_GLA"] root_path (Some Xform) s p ++
  hide_ops ["001_SPLIT_GLA"] root_path None s p ++
  (if hide_top_walls
   then hide_ops ["_exterior"; "_ceiling"] root_path None s p
   else []) ++
  modify_loop_ops root_path coarse_approximation_type s p.

(** The attributes [capture_transforms] records. *)
Definition transform_attrs : list string :=
  ["xformOp:translate"; "xformOp:rotateXYZ"; "xformOp:scale";
   "xformOp:orient"].

(** The attributes behind the visibility flag and the collision markers. *)
Definition marker_attrs : list string :=
  ["visibility"; "physics:collisionEnabled"; "physics:approximation"].

(** An edit that sets an attribute sets one of [marker_attrs]. *)
Definition marker_op (o : Op) : Prop :=
  match o with
  | OSet k _ => k ∈ marker_attrs
  | OApply _ => True
  end.

(** How many times schema [a] is listed on the prim at [p]. *)
Definition schema_count (s : Stage) (p : Handle) (a : API) : nat :=
  match props_at s p with
  | Some pr => count_occ API_eq_dec (apiSchemas pr) a
  | None => 0
  end.

(** [F] looks at names, types and hierarchy only. *)
Definition skel_only {X} (F : Stage → X) : Prop := ∀ s, F (skel s) = F s.

(** [T] edits properties in place, by the edits [O] on each prim. *)
Definition edits (T : Stage → Stage) (O : Stage → Handle → list Op) : Prop :=
  (∀ s p, O (skel s) p = O s p) ∧
  ∀ s, skel (T s) = skel s ∧
       ∀ p, props_at (T s) p = run (O s p) <$> props_at s p.

(** ** Example scenes *)

Definition no_props : Props := mkProps ∅ [].

(** Properties of a prim placed at [(x, y, z)]. *)
Definition placed (x y z : Q) : Props :=
  mkProps {[ "xformOp:translate" := VVec [x; y; z] ]} [].

(** A room: a wall mesh with a panel mesh below it, furniture, a ceiling
    light group with its glass mesh, and enclosing structure.

    [/Environment] is [[0]], [/Environment/north_wall] is [[0; 0]],
    [/Environment/north_wall/panel] is [[0; 0; 0]], and so on. *)
Definition room : Stage :=
  mkPrim "" Other no_props
    [mkPrim "Environment" Xform (placed 0 0 0)
       [mkPrim "north_wall" Mesh (placed 0 2 0)
          [mkPrim "panel" Mesh (placed 0 2 1) []];
        mkPrim "Chair_03" Mesh (placed 1 1 0) [];
        mkPrim "rug_floor_01" Mesh (placed 0 0 0) [];
        mkPrim "001_SPLIT_GLA_light" Xform (placed 0 0 3)
          [mkPrim "001_SPLIT_GLA_glass" Mesh no_props []];
        mkPrim "north_exterior" Xform (placed 0 3 0) [];
        mkPrim "kitchen_ceiling" Mesh (placed 0 0 3) [];
        mkPrim "ball" Gprim (placed 2 2 0) []]].

Definition Environment : option SdfPath := Some ["Environment"].

(** Two snapshots of one prim, a translation of 5e-7 apart along z. *)
Definition ball_before : Snapshot :=
  [("/Environment/ball",
    mkTransformData (Some (VVec [2; 2; 0]%Q)) None None None)].
Definition ball_after : Snapshot :=
  [("/Environment/ball",
    mkTransformData (Some (VVec [2; 2; 1 # 2000000]%Q)) None None None)].

Definition empty_stage : Stage := mkPrim "" Other no_props [].

(** An outside in which the file exists or not, and in which the import
    loads [room] or raises and leaves the stage as it finds it. *)
Definition example_env (file_exists load_succeeds : bool) : Env := {|
  path_exists := λ _, file_exists;
  startup_stage := empty_stage;
  new_stage := empty_stage;
  load_env := λ _ s,
    if load_succeeds then inl room else inr ("Failed to open layer", s);
  app_update := λ s, s;
  resolve_scale_issues := λ s, s;
  start_time := 0;
  frames := [1; 3]%Q
|}.

Definition example_args : Args := {|
  usd_path := "scene.usdc";
  coarse_approximation := "convexHull";
  hide_walls := true
|}.

(** ** Further notions used in the properties *)

(** [prim.IsA(UsdGeom.Gprim)] for the prim at [p]. *)
Definition is_gprim_at (s : Stage) (p : Handle) : bool :=
  match type_at s p with Some ty => IsA_Gprim ty | None => false end.

(** The applied schemas of the prim at [p]. *)
Definition schemas_at (s : Stage) (p : Handle) : option (list API) :=
  apiSchemas <$> props_at s p.

(** [e] is a call of [simulation_app.update()]. *)
Definition is_AppUpdate (e : Event) : bool :=
  match e with AppUpdate => true | _ => false end.

(** [path] is in both snapshots. *)
Definition in_both (after_transforms : Snapshot)
    (item : string * TransformData) : bool :=
  match dict_get item.1 after_transforms with Some _ => true | None => false end.

(** A workshop: a table mesh with a leg mesh below it, the leg having a
    fine-collider marker in its name, and a ceiling light group.

    [/Environment/Table_01] is [[0; 0]], [/Environment/Table_01/leg_wall]
    is [[0; 0; 0]], [/Environment/001_SPLIT_GLA_ceiling] is [[0; 1]]. *)
Definition workshop : Stage :=
  mkPrim "" Other no_props
    [mkPrim "Environment" Xform (placed 0 0 0)
       [mkPrim "Table_01" Mesh (placed 1 0 0)
          [mkPrim "leg_wall" Mesh (placed 1 0 0) []];
        mkPrim "001_SPLIT_GLA_ceiling" Xform (placed 0 0 3) []]].

(** [p] is at or below a mesh the pass visits whose name contains no
    fine-collider marker. *)
Definition below_coarse_mesh (root_path : option SdfPath) (s : Stage)
    (p : Handle) : Prop :=
  ∃ q, q ∈ PrimRange s (root_prim_of s root_path) ∧
       p ∈ PrimRange s (Some q) ∧
       is_mesh_at s q = true ∧
       name_has fine_collider_types s q = false.

(** * Properties *)

(** ** The stage as a tree *)

Lemma GetName_skel t : GetName (skel t) = GetName t.
Proof. by destruct t. Qed.

Lemma GetTypeName_skel t : GetTypeName (skel t) = GetTypeName t.
Proof. by destruct t. Qed.

Lemma GetChildren_skel t : GetChildren (skel t) = skel <$> GetChildren t.
Proof. by destruct t. Qed.

Lemma get_skel p : ∀ t, get (skel t) p = skel <$> get t p.
Proof.
  induction p as [|i p IH]; intros t; simpl; [done|].
  rewrite GetChildren_skel, list_lookup_fmap.
  destruct (GetChildren t !! i) as [c|]; simpl; [apply IH | done].
Qed.

Lemma name_at_skel s p : name_at (skel s) p = name_at s p.
Proof.
  unfold name_at. rewrite get_skel.
  destruct (get s p); simpl; [by rewrite GetName_skel | done].
Qed.

Lemma type_at_skel s p : type_at (skel s) p = type_at s p.
Proof.
  unfold type_at. rewrite get_skel.
  destruct (get s p); simpl; [by rewrite GetTypeName_skel | done].
Qed.

Lemma children_range_skel cs :
  Forall (λ t, subtree_range (skel t) = subtree_range t) cs →
  ∀ i, children_range subtree_range i (skel <$> cs)
       = children_range subtree_range i cs.
Proof.
  induction 1 as [|c cs Hc _ IH]; intros i; simpl; [done|].
  by rewrite Hc, IH.
Qed.

Lemma subtree_range_skel t : subtree_range (skel t) = subtree_range t.
Proof.
  induction t as [n k pr cs IH] using Prim_tree_ind; simpl.
  by rewrite children_range_skel.
Qed.

Lemma PrimRange_skel s r : PrimRange (skel s) r = PrimRange s r.
Proof.
  destruct r as [r|]; simpl; [|done].
  rewrite get_skel. destruct (get s r) as [t|]; simpl; [|done].
  by rewrite subtree_range_skel.
Qed.

Lemma list_find_name_skel n cs :
  list_find (λ c, GetName c = n) (skel <$> cs)
  = prod_map id skel <$> list_find (λ c, GetName c = n) cs.
Proof.
  rewrite list_find_fmap. f_equal.
  apply list_find_ext. intros c. simpl. by rewrite GetName_skel.
Qed.

Lemma GetPrimAtPath_skel path : ∀ t,
  GetPrimAtPath (skel t) path = GetPrimAtPath t path.
Proof.
  induction path as [|n rest IH]; intros t; simpl; [done|].
  rewrite GetChildren_skel, list_find_name_skel.
  destruct (list_find _ (GetChildren t)) as [[i c]|]; simpl; [|done].
  by rewrite IH.
Qed.

Lemma GetPath_skel p : ∀ t, GetPath (skel t) p = GetPath t p.
Proof.
  induction p as [|i p IH]; intros t; simpl; [done|].
  rewrite GetChildren_skel, list_lookup_fmap.
  destruct (GetChildren t !! i) as [c|]; simpl; [|done].
  by rewrite GetName_skel, IH.
Qed.

Lemma root_prim_of_skel s root_path :
  root_prim_of (skel s) root_path = root_prim_of s root_path.
Proof. destruct root_path; simpl; [apply GetPrimAtPath_skel | done]. Qed.

(** Editing properties leaves names, types and hierarchy alone. *)
Lemma skel_update p f : ∀ t, skel (update p f t) = skel t.
Proof.
  induction p as [|i p IH]; intros [n k pr cs]; simpl; [done|].
  f_equal. apply list_eq. intros j. rewrite !list_lookup_fmap.
  rewrite list_lookup_alter. case_decide; [subst j|done].
  destruct (cs !! i); simpl; [by rewrite IH | done].
Qed.

Lemma props_at_update p f : ∀ t q,
  props_at (update p f t) q
  = if decide (q = p) then f <$> props_at t q else props_at t q.
Proof.
  unfold props_at.
  induction p as [|i p IH]; intros t q; destruct t as [n k pr cs]; simpl.
  - by destruct q as [|j q].
  - destruct q as [|j q]; [done|]. simpl get.
    rewrite list_lookup_alter. destruct (decide (i = j)) as [->|Hij].
    + destruct (cs !! j) as [c|]; simpl.
      * rewrite IH. repeat case_decide; congruence.
      * by case_decide.
    + case_decide; [congruence|done].
Qed.

(** Two stages with the same skeleton and the same properties everywhere
    are equal. *)
Lemma stage_ext : ∀ s s',
  skel s = skel s' → (∀ p, props_at s p = props_at s' p) → s = s'.
Proof.
  induction s as [n k pr cs IH] using Prim_tree_ind.
  intros [n' k' pr' cs'] Hsk Hp. simpl in Hsk.
  injection Hsk as -> -> Hcs.
  pose proof (Hp []) as H0. injection H0 as ->.
  f_equal. apply list_eq. intros i.
  assert (Hi : skel <$> cs !! i = skel <$> cs' !! i)
    by (by rewrite <- !list_lookup_fmap, Hcs).
  destruct (cs !! i) as [c|] eqn:Ec, (cs' !! i) as [c'|] eqn:Ec';
    simpl in Hi; try done.
  f_equal. rewrite Forall_lookup in IH. apply (IH i c Ec); [congruence|].
  intros p. specialize (Hp (i :: p)). unfold props_at in Hp. simpl in Hp.
  by rewrite Ec, Ec' in Hp.
Qed.

(** ** Pre-order *)

Lemma children_range_head range i cs q :
  q ∈ children_range range i cs → ∃ (j : nat) q', q = j :: q' ∧ (i ≤ j)%nat.
Proof.
  revert i. induction cs as [|c cs IH]; intros i; simpl.
  - by intros ?%elem_of_nil.
  - rewrite elem_of_app, list_elem_of_fmap.
    intros [(q' & -> & _)|(j & q' & -> & Hj)%IH]; eauto with lia.
Qed.

Lemma fmap_eq_app_cons {A B} (f : A → B) l k1 y k2 :
  f <$> l = k1 ++ y :: k2 →
  ∃ l1 x l2, l = l1 ++ x :: l2 ∧ k1 = f <$> l1 ∧ y = f x ∧ k2 = f <$> l2.
Proof.
  intros (l1 & l' & -> & H & ->)%fmap_app_inv.
  symmetry in H. apply fmap_cons_inv in H as (x & l2 & -> & -> & ->).
  by exists l1, x, l2.
Qed.

Lemma children_range_preorder cs :
  Forall (λ t, ∀ l1 p l2 q, subtree_range t = l1 ++ p :: l2 →
                 q ∈ l2 → ¬ q `prefix_of` p) cs →
  ∀ i l1 p l2 q, children_range subtree_range i cs = l1 ++ p :: l2 →
    q ∈ l2 → ¬ q `prefix_of` p.
Proof.
  induction 1 as [|c cs Hc _ IH]; intros i l1 p l2 q; simpl.
  - by intros ?%app_cons_not_nil.
  - intros [(k & HA & HB)|(k & -> & HB)]%app_eq_inv Hq; [|by eapply IH].
    destruct k as [|p' k]; simpl in HB.
    { rewrite app_nil_r in HA. eapply (IH (S i) []); [symmetry; exact HB|done]. }
    injection HB as <- ->.
    apply fmap_eq_app_cons in HA as (m1 & x & m2 & Hr & -> & -> & ->).
    apply elem_of_app in Hq as [(q' & -> & Hq')%list_elem_of_fmap|Hq].
    + intros Hpre. apply (Hc _ _ _ _ Hr Hq').
      destruct Hpre as [z Hz]. injection Hz as Hz. by exists z.
    + apply children_range_head in Hq as (j & q' & -> & Hj).
      intros [z Hz]. injection Hz as Hz. lia.
Qed.

(** In a prim range, no prim comes after one of its descendants. *)
Lemma subtree_range_preorder t : ∀ l1 p l2 q,
  subtree_range t = l1 ++ p :: l2 → q ∈ l2 → ¬ q `prefix_of` p.
Proof.
  induction t as [n k pr cs IH] using Prim_tree_ind.
  intros l1 p l2 q; simpl. destruct l1 as [|x l1]; simpl.
  - intros [= <- <-] (j & q' & -> & _)%children_range_head [z Hz]. done.
  - intros [= <- H]. by eapply children_range_preorder.
Qed.

Lemma PrimRange_prefix s r p : p ∈ PrimRange s (Some r) → r `prefix_of` p.
Proof.
  simpl. destruct (get s r); [|by intros ?%elem_of_nil].
  intros (x & -> & _)%list_elem_of_fmap. by exists x.
Qed.

Lemma PrimRange_self s p : is_Some (get s p) → p ∈ PrimRange s (Some p).
Proof.
  intros [t Ht]. simpl. rewrite Ht. destruct t; simpl.
  rewrite app_nil_r. apply list_elem_of_here.
Qed.

Lemma PrimRange_preorder s r l1 p l2 q :
  PrimRange s r = l1 ++ p :: l2 → q ∈ l2 → p ∉ PrimRange s (Some q).
Proof.
  destruct r as [r|]; simpl; [|by intros ?%app_cons_not_nil].
  destruct (get s r) as [t|]; [|by intros ?%app_cons_not_nil].
  intros (m1 & x & m2 & Hr & -> & -> & ->)%fmap_eq_app_cons.
  intros (q' & -> & Hq')%list_elem_of_fmap Hin%PrimRange_prefix.
  apply (subtree_range_preorder _ _ _ _ _ Hr Hq').
  destruct Hin as [z Hz]. rewrite <- app_assoc in Hz.
  apply app_inv_head in Hz. by exists z.
Qed.

(** ** Edits of one prim *)

Lemma run_app l1 l2 pr : run (l1 ++ l2) pr = run l2 (run l1 pr).
Proof. apply foldl_app. Qed.

Lemma run_cons o l pr : run (o :: l) pr = run l (run_op pr o).
Proof. done. Qed.

Lemma apiSchemas_run_op a pr o :
  a ∈ apiSchemas (run_op pr o) ↔ a ∈ apiSchemas pr ∨ o = OApply a.
Proof.
  destruct o as [b|k v]; simpl.
  - case_bool_decide as Hb; simpl.
    + split; [by left|]. intros [?|[= ->]]; done.
    + rewrite elem_of_app, list_elem_of_singleton.
      split; intros [?|?]; try (by left); right; congruence.
  - split; [by left|]. by intros [?|?].
Qed.

(** A schema is applied after the edits iff it was before or they apply it. *)
Lemma apiSchemas_run a ops : ∀ pr,
  a ∈ apiSchemas (run ops pr) ↔ a ∈ apiSchemas pr ∨ OApply a ∈ ops.
Proof.
  induction ops as [|o ops IH]; intros pr.
  - simpl. split; [by left|]. by intros [?|?%elem_of_nil].
  - rewrite run_cons, IH, apiSchemas_run_op, elem_of_cons.
    intuition congruence.
Qed.

Lemma apiSchemas_run_absorbed ops : ∀ pr,
  (∀ a, OApply a ∈ ops → a ∈ apiSchemas pr) →
  apiSchemas (run ops pr) = apiSchemas pr.
Proof.
  induction ops as [|o ops IH]; intros pr H; [done|].
  rewrite run_cons.
  assert (Ho : run_op pr o = pr ∨ apiSchemas (run_op pr o) = apiSchemas pr).
  { destruct o as [a|k v]; simpl; [|by right].
    rewrite bool_decide_eq_true_2; [by left|]. apply H, list_elem_of_here. }
  assert (E : apiSchemas (run_op pr o) = apiSchemas pr)
    by (destruct Ho as [->|?]; done).
  rewrite IH, E; [done|]. intros a Ha. rewrite E. apply H. by right.
Qed.

(** An attribute holds what the edits last set it to, or what it held. *)
Lemma attrs_run k ops : ∀ pr,
  attrs (run ops pr) !! k
  = match last_set k ops with Some v => Some v | None => attrs pr !! k end.
Proof.
  induction ops as [|o ops IH]; intros pr; [done|].
  rewrite run_cons, IH. simpl. destruct (last_set k ops); [done|].
  destruct o as [a|k' v]; simpl.
  - by case_bool_decide.
  - rewrite lookup_insert. by case_decide.
Qed.

Lemma Props_eq pr pr' :
  attrs pr = attrs pr' → apiSchemas pr = apiSchemas pr' → pr = pr'.
Proof. destruct pr, pr'; simpl; by intros -> ->. Qed.

(** Replaying the edits of a prim changes nothing. *)
Lemma run_idem ops pr : run ops (run ops pr) = run ops pr.
Proof.
  apply Props_eq.
  - apply map_eq. intros k. rewrite !attrs_run.
    by destruct (last_set k ops).
  - apply apiSchemas_run_absorbed. intros a Ha.
    apply apiSchemas_run. by right.
Qed.

Lemma last_set_app k l1 l2 :
  last_set k (l1 ++ l2)
  = match last_set k l2 with Some v => Some v | None => last_set k l1 end.
Proof.
  induction l1 as [|o l1 IH]; simpl; [by destruct (last_set k l2)|].
  rewrite IH. by destruct (last_set k l2).
Qed.

Lemma last_set_None k ops :
  (∀ v, OSet k v ∉ ops) → last_set k ops = None.
Proof.
  induction ops as [|o ops IH]; intros H; simpl; [done|].
  rewrite IH; [|intros v Hv; apply (H v); by right].
  destruct o as [a|k' v]; [done|]. case_decide; [subst k'|done].
  exfalso. apply (H v), list_elem_of_here.
Qed.

(** The number of times a schema is listed never grows beyond one through
    the edits, unless it was listed more often before. *)
Lemma count_apiSchemas_run a ops : ∀ pr,
  (count_occ API_eq_dec (apiSchemas (run ops pr)) a
   ≤ Nat.max 1 (count_occ API_eq_dec (apiSchemas pr) a))%nat.
Proof.
  induction ops as [|o ops IH]; intros pr; [simpl; lia|].
  rewrite run_cons. etrans; [apply IH|].
  destruct o as [b|k v]; simpl; [|lia].
  case_bool_decide as Hb; [lia|]. simpl.
  rewrite count_occ_app. simpl. destruct (API_eq_dec b a) as [->|]; [|lia].
  assert (count_occ API_eq_dec (apiSchemas pr) a = 0)%nat; [|lia].
  apply count_occ_not_In. by rewrite <- list_elem_of_In.
Qed.

(** ** Edits of the stage *)

Lemma update_ext_at p f g s :
  (∀ pr, props_at s p = Some pr → f pr = g pr) →
  update p f s = update p g s.
Proof.
  intros H. apply stage_ext; [by rewrite !skel_update|].
  intros q. rewrite !props_at_update. case_decide; [subst q|done].
  destruct (props_at s p) as [pr|]; simpl; [|done]. by rewrite H.
Qed.

Lemma update_update p f g s :
  update p g (update p f s) = update p (g ∘ f) s.
Proof.
  apply stage_ext; [by rewrite !skel_update|].
  intros q. rewrite !props_at_update. case_decide; [|done].
  by destruct (props_at s q).
Qed.

Lemma apply_ops_nil p s : apply_ops p [] s = s.
Proof.
  apply stage_ext; [apply skel_update|].
  intros q. unfold apply_ops. rewrite props_at_update.
  case_decide; [|done]. by destruct (props_at s q).
Qed.

Lemma apply_ops_app p l1 l2 s :
  apply_ops p l2 (apply_ops p l1 s) = apply_ops p (l1 ++ l2) s.
Proof.
  unfold apply_ops. rewrite update_update. apply update_ext_at.
  intros pr _. simpl. by rewrite run_app.
Qed.

Lemma SetAttr_ops p k v s : SetAttr p k v s = apply_ops p [OSet k v] s.
Proof. done. Qed.

(** The guarded application of a schema is one edit. *)
Lemma guarded_Apply p a s :
  (if negb (HasAPI s p a) then Apply a p s else s) = apply_ops p [OApply a] s.
Proof.
  unfold HasAPI, Apply, apply_ops.
  destruct (props_at s p) as [pr|] eqn:E; simpl.
  - case_bool_decide as Ha; simpl.
    + symmetry. apply stage_ext; [apply skel_update|].
      intros q. rewrite props_at_update. case_decide; [subst q|done].
      rewrite E. simpl. unfold run. simpl.
      by rewrite bool_decide_eq_true_2.
    + apply update_ext_at. intros pr' E'. rewrite E in E'.
      injection E' as <-. unfold run. simpl.
      by rewrite bool_decide_eq_false_2.
  - apply update_ext_at. intros pr' E'. by rewrite E in E'.
Qed.

(** One iteration of [add_colliders] is the edits [collide_ops] on the
    prim it visits. *)
Lemma add_colliders_step_ops a s p :
  add_colliders_step a s p = apply_ops p (collide_ops a (type_at s p)) s.
Proof.
  unfold add_colliders_step, collide_ops.
  destruct (type_at s p) as [ty|]; [|by rewrite apply_ops_nil].
  destruct (IsA_Gprim ty), (IsA_Mesh ty), (String.eqb a "triangleMesh");
    rewrite ?guarded_Apply, ?SetAttr_ops, ?guarded_Apply, ?SetAttr_ops,
      ?apply_ops_app, ?apply_ops_app, ?apply_ops_app, ?apply_ops_nil;
    done.
Qed.

Lemma edits_skel T O s s' p : edits T O → skel s = skel s' → O s p = O s' p.
Proof. intros [H _] E. by rewrite <- (H s), <- (H s'), E. Qed.

Lemma edits_ext T T' O : (∀ s, T s = T' s) → edits T O → edits T' O.
Proof. intros E [H1 H2]. split; [done|]. intros s. rewrite <- E. apply H2. Qed.

Lemma edits_ops_ext T O O' : (∀ s p, O s p = O' s p) → edits T O → edits T O'.
Proof.
  intros E [H1 H2]. split.
  - intros s p. by rewrite <- !E.
  - intros s. destruct (H2 s) as [Hs Hp]. split; [done|].
    intros p. by rewrite <- E.
Qed.

Lemma edits_id : edits (λ s, s) (λ _ _, []).
Proof. split; [done|]. intros s. split; [done|]. intros p. by destruct (props_at s p). Qed.

(** Edits in sequence. *)
Lemma edits_seq T1 O1 T2 O2 :
  edits T1 O1 → edits T2 O2 →
  edits (λ s, T2 (T1 s)) (λ s p, O1 s p ++ O2 s p).
Proof.
  intros H1 H2. split.
  - intros s p. destruct H1 as [-> _], H2 as [-> _]. done.
  - intros s. destruct (proj2 H1 s) as [S1 P1], (proj2 H2 (T1 s)) as [S2 P2].
    split; [congruence|]. intros p. rewrite P2, P1.
    rewrite (edits_skel _ _ _ s p H2 S1).
    destruct (props_at s p); simpl; [|done]. by rewrite run_app.
Qed.

Lemma edits_if (b : Stage → bool) T1 O1 T2 O2 :
  skel_only b → edits T1 O1 → edits T2 O2 →
  edits (λ s, if b s then T1 s else T2 s)
        (λ s p, if b s then O1 s p else O2 s p).
Proof.
  intros Hb H1 H2. split.
  - intros s p. rewrite Hb. destruct H1 as [-> _], H2 as [-> _]. done.
  - intros s. destruct (b s); [apply H1|apply H2].
Qed.

(** Edits in a loop over a list of prims that the skeleton determines. *)
Lemma edits_foldl {X} (step : Stage → X → Stage)
    (O : X → Stage → Handle → list Op) (L : Stage → list X) :
  (∀ x, edits (λ s, step s x) (O x)) → skel_only L →
  edits (λ s, foldl step s (L s)) (λ s p, L s ≫= λ x, O x s p).
Proof.
  intros Hstep HL. split.
  - intros s p. rewrite HL. apply list_bind_ext; [|done].
    intros x. apply (Hstep x).
  - intros s. generalize (L s). intros l. revert s.
    induction l as [|x l IH]; intros s; simpl.
    + split; [done|]. intros p. by destruct (props_at s p).
    + destruct (IH (step s x)) as [S2 P2].
      destruct (proj2 (Hstep x) s) as [S1 P1].
      split; [congruence|]. intros p. rewrite P2, P1.
      assert (E : (l ≫= λ y, O y (step s x) p) = (l ≫= λ y, O y s p)).
      { apply list_bind_ext; [|done].
        intros y. by apply (edits_skel _ _ _ _ _ (Hstep y)). }
      rewrite E. destruct (props_at s p); simpl; [|done].
      by rewrite run_app.
Qed.

Lemma edits_apply_ops (q : Handle) (ops : Stage → list Op) :
  skel_only ops →
  edits (λ s, apply_ops q (ops s) s) (λ s p, only_at p q (ops s)).
Proof.
  intros Hops. split.
  - intros s p. by rewrite Hops.
  - intros s. split; [apply skel_update|]. intros p.
    unfold apply_ops, only_at. rewrite props_at_update.
    case_decide; [done|]. by destruct (props_at s p).
Qed.

(** ** The mutator as edits *)

Lemma is_mesh_at_skel_only p : skel_only (λ s, is_mesh_at s p).
Proof. intros s. unfold is_mesh_at. by rewrite type_at_skel. Qed.

Lemma name_has_skel_only m p : skel_only (λ s, name_has m s p).
Proof. intros s. unfold name_has. by rewrite name_at_skel. Qed.

Lemma PrimRange_skel_only root_path :
  skel_only (λ s, PrimRange s (root_prim_of s root_path)).
Proof. intros s. by rewrite PrimRange_skel, root_prim_of_skel. Qed.

Lemma find_matching_prims_skel_only m root_path ty :
  skel_only (find_matching_prims m root_path ty).
Proof.
  intros s. unfold find_matching_prims.
  rewrite PrimRange_skel, root_prim_of_skel. apply List.filter_ext.
  intros p. rewrite get_skel. destruct (get s p) as [t|]; simpl; [|done].
  by rewrite GetName_skel, GetTypeName_skel.
Qed.

Lemma add_colliders_edits r a :
  edits (add_colliders r a) (add_colliders_ops r a).
Proof.
  apply (edits_foldl (add_colliders_step a)
           (λ q s p, only_at p q (collide_ops a (type_at s q)))
           (λ s, PrimRange s (Some r))).
  - intros x. eapply edits_ext.
    + intros s. symmetry. apply add_colliders_step_ops.
    + apply (edits_apply_ops x (λ s, collide_ops a (type_at s x))).
      intros s. by rewrite type_at_skel.
  - intros s. apply PrimRange_skel.
Qed.

Lemma set_invisible_edits m root_path ty :
  edits (λ s, foldl (λ s prim,
                       SetAttr prim "visibility" (VToken "invisible") s)
                s (find_matching_prims m root_path ty s))
        (hide_ops m root_path ty).
Proof.
  apply (edits_foldl
           (λ s prim, SetAttr prim "visibility" (VToken "invisible") s)
           (λ q s p, only_at p q [OSet "visibility" (VToken "invisible")])
           (find_matching_prims m root_path ty)).
  - intros x.
    apply (edits_apply_ops x (λ _, [OSet "visibility" (VToken "invisible")])).
    done.
  - apply find_matching_prims_skel_only.
Qed.

Lemma hide_matching_prims_edits m root_path ty :
  edits (hide_matching_prims m root_path ty) (hide_ops m root_path None).
Proof. apply set_invisible_edits. Qed.

Lemma add_rigid_body_dynamics_edits q :
  edits (add_rigid_body_dynamics q) (λ s p, only_at p q [OApply RigidBodyAPI]).
Proof.
  eapply edits_ext.
  - intros s. symmetry. apply guarded_Apply.
  - by apply (edits_apply_ops q (λ _, [OApply RigidBodyAPI])).
Qed.

(** The iteration of [modify_environment] on [q], with its tests read off
    the stage. *)
Lemma modify_step_unfold c s q :
  modify_step c s q
  = if is_mesh_at s q then
      (λ s1, if name_has rigid_body_types s1 q
             then add_rigid_body_dynamics q s1 else s1)
        (if name_has fine_collider_types s q
         then add_colliders q "triangleMesh" s
         else add_colliders q c s)
    else s.
Proof.
  unfold modify_step, is_mesh_at, name_has, type_at, name_at.
  destruct (get s q) as [t|] eqn:E; simpl; [|done].
  destruct (IsA_Mesh (GetTypeName t)); [|done].
  assert (Hn : ∀ a, GetName <$> get (add_colliders q a s) q = Some (GetName t)).
  { intros a. change (name_at (add_colliders q a s) q = Some (GetName t)).
    rewrite <- name_at_skel.
    rewrite (proj1 (proj2 (add_colliders_edits q a) s)), name_at_skel.
    unfold name_at. by rewrite E. }
  destruct (any_in fine_collider_types (GetName t)); cbv beta; by rewrite Hn.
Qed.

Lemma modify_step_edits c q :
  edits (λ s, modify_step c s q) (modify_step_ops c q).
Proof.
  pose proof (edits_if (λ s, name_has fine_collider_types s q) _ _ _ _
                (name_has_skel_only _ q)
                (add_colliders_edits q "triangleMesh")
                (add_colliders_edits q c)) as H1.
  pose proof (edits_if (λ s, name_has rigid_body_types s q) _ _ _ _
                (name_has_skel_only _ q)
                (add_rigid_body_dynamics_edits q) edits_id) as H2.
  pose proof (edits_if (λ s, is_mesh_at s q) _ _ _ _
                (is_mesh_at_skel_only q)
                (edits_seq _ _ _ _ H1 H2) edits_id) as H.
  eapply edits_ext; [|eapply edits_ops_ext; [|exact H]].
  - intros s. symmetry. apply modify_step_unfold.
  - intros s p. unfold modify_step_ops, collider_approx_at. simpl.
    by destruct (is_mesh_at s q), (name_has fine_collider_types s q).
Qed.

(** What [modify_environment] does to a stage: it keeps names, types and
    hierarchy, and edits the properties of each prim by [modify_ops]. *)
Lemma modify_environment_edits root_path c hide :
  edits (modify_environment root_path c hide) (modify_ops root_path c hide).
Proof.
  pose proof (set_invisible_edits ["001_SPLIT_GLA"] root_path
                (Some Xform)) as H1.
  pose proof (hide_matching_prims_edits ["001_SPLIT_GLA"] root_path
                (Some Xform)) as H2.
  pose proof (edits_if (λ _, hide) _ _ _ _ (λ _, eq_refl)
                (hide_matching_prims_edits ["_exterior"; "_ceiling"]
                   root_path None) edits_id) as H3.
  pose proof (edits_foldl (modify_step c) (modify_step_ops c) _
                (modify_step_edits c) (PrimRange_skel_only root_path)) as H4.
  pose proof (edits_seq _ _ _ _ H1 (edits_seq _ _ _ _ H2
                (edits_seq _ _ _ _ H3 H4))) as H.
  eapply edits_ext; [|eapply edits_ops_ext; [|exact H]].
  - intros s. reflexivity.
  - intros s p. reflexivity.
Qed.

(** ** Reading the stage after edits *)

Lemma GetAttr_edits T O s p k :
  edits T O →
  GetAttr (T s) p k
  = match props_at s p with
    | Some pr =>
        match last_set k (O s p) with
        | Some v => Some v
        | None => attrs pr !! k
        end
    | None => None
    end.
Proof.
  intros [_ H]. unfold GetAttr. rewrite (proj2 (H s) p).
  destruct (props_at s p) as [pr|]; simpl; [|done]. apply attrs_run.
Qed.

Lemma HasAPI_edits T O s p a :
  edits T O →
  HasAPI (T s) p a = true ↔
  is_Some (props_at s p) ∧ (HasAPI s p a = true ∨ OApply a ∈ O s p).
Proof.
  intros [_ H]. unfold HasAPI. rewrite (proj2 (H s) p).
  destruct (props_at s p) as [pr|]; simpl.
  - rewrite !bool_decide_eq_true, apiSchemas_run. split; [|tauto].
    intros H'. split; [by eexists|done].
  - split; [done|]. by intros [[? [=]] _].
Qed.

Lemma HasAttribute_GetAttr s p k :
  HasAttribute s p k = bool_decide (is_Some (GetAttr s p k)).
Proof.
  unfold HasAttribute, GetAttr. by destruct (props_at s p) as [pr|].
Qed.

Lemma marker_op_only_at p q ops :
  Forall marker_op ops → Forall marker_op (only_at p q ops).
Proof. unfold only_at. by case_decide. Qed.

Lemma marker_op_collide a ty : Forall marker_op (collide_ops a ty).
Proof.
  unfold collide_ops. destruct ty as [ty|]; [|done].
  destruct (IsA_Gprim ty), (IsA_Mesh ty), (String.eqb a "triangleMesh");
    simpl; repeat constructor.
Qed.

Lemma marker_op_hide m root_path ty s p :
  Forall marker_op (hide_ops m root_path ty s p).
Proof.
  unfold hide_ops. apply Forall_bind, Forall_forall. intros q _. simpl.
  apply marker_op_only_at. repeat constructor.
Qed.

Lemma marker_op_modify_step c q s p :
  Forall marker_op (modify_step_ops c q s p).
Proof.
  unfold modify_step_ops. destruct (is_mesh_at s q); [|done].
  apply Forall_app. split.
  - unfold add_colliders_ops. apply Forall_bind, Forall_forall.
    intros x _. simpl. apply marker_op_only_at, marker_op_collide.
  - destruct (name_has rigid_body_types s q); [|done].
    apply marker_op_only_at. by repeat constructor.
Qed.

(** The only attributes [modify_environment] sets are [marker_attrs]. *)
Lemma marker_op_modify root_path c hide s p :
  Forall marker_op (modify_ops root_path c hide s p).
Proof.
  unfold modify_ops. repeat (apply Forall_app; split).
  - apply marker_op_hide.
  - apply marker_op_hide.
  - destruct hide; [apply marker_op_hide|done].
  - unfold modify_loop_ops. apply Forall_bind, Forall_forall.
    intros q _. apply marker_op_modify_step.
Qed.

Lemma last_set_marker k ops :
  Forall marker_op ops → k ∉ marker_attrs → last_set k ops = None.
Proof.
  intros H Hk. apply last_set_None. intros v Hv.
  rewrite Forall_forall in H. by apply H in Hv.
Qed.

(** [modify_environment] leaves every attribute outside [marker_attrs]. *)
Lemma modify_environment_frame root_path c hide s p k :
  k ∉ marker_attrs →
  GetAttr (modify_environment root_path c hide s) p k = GetAttr s p k.
Proof.
  intros Hk. rewrite (GetAttr_edits _ _ _ _ _
                        (modify_environment_edits root_path c hide)).
  rewrite (last_set_marker _ _ (marker_op_modify _ _ _ _ _) Hk).
  unfold GetAttr. by destruct (props_at s p).
Qed.

Lemma modify_environment_skel root_path c hide s :
  skel (modify_environment root_path c hide s) = skel s.
Proof. apply (proj2 (modify_environment_edits root_path c hide) s). Qed.

Lemma foldl_ext_in {A B} (f g : A → B → A) l : ∀ a,
  (∀ a x, x ∈ l → f a x = g a x) → foldl f a l = foldl g a l.
Proof.
  induction l as [|x l IH]; intros a H; simpl; [done|].
  rewrite H by apply list_elem_of_here. apply IH.
  intros a' y Hy. apply H. by right.
Qed.

(** A snapshot depends on names, hierarchy and the transform attributes. *)
Lemma capture_transforms_ext s s' root_path :
  skel s' = skel s →
  (∀ p k, k ∈ transform_attrs → GetAttr s' p k = GetAttr s p k) →
  capture_transforms s' root_path = capture_transforms s root_path.
Proof.
  intros Hsk Hattr. unfold capture_transforms.
  rewrite <- (GetPrimAtPath_skel _ s'), Hsk, GetPrimAtPath_skel.
  destruct (GetPrimAtPath s root_path) as [r|]; [|done].
  rewrite <- (PrimRange_skel s'), Hsk, PrimRange_skel.
  apply foldl_ext_in. intros d p _. unfold capture_step.
  rewrite !HasAttribute_GetAttr.
  rewrite <- (GetPath_skel _ s'), Hsk, GetPath_skel.
  rewrite !Hattr by (unfold transform_attrs; set_solver). done.
Qed.

(** ** Which edits reach a prim *)

Lemma elem_of_bind_only_at {X} `{EqDecision X} (o : Op) (p : X)
    (l : list X) (g : X → list Op) :
  o ∈ (l ≫= λ q, if decide (p = q) then g q else []) ↔ p ∈ l ∧ o ∈ g p.
Proof.
  rewrite list_elem_of_bind. split.
  - intros (q & Ho & Hq). case_decide; [by subst q|by apply elem_of_nil in Ho].
  - intros [Hp Ho]. exists p. by rewrite decide_True.
Qed.

Lemma last_set_bind_only_at {X} `{EqDecision X} k (p : X)
    (l : list X) (g : X → list Op) :
  last_set k (l ≫= λ q, if decide (p = q) then g q else [])
  = if decide (p ∈ l) then last_set k (g p) else None.
Proof.
  induction l as [|q l IH]; [done|].
  change (last_set k ((if decide (p = q) then g q else []) ++
                      (l ≫= λ q, if decide (p = q) then g q else []))
          = if decide (p ∈ q :: l) then last_set k (g p) else None).
  rewrite last_set_app, IH.
  destruct (decide (p ∈ l)) as [Hl|Hl].
  - destruct (decide (p ∈ q :: l)) as [_|Hn]; [|by destruct Hn; right].
    destruct (last_set k (g p)) eqn:E; [done|].
    case_decide; [by subst q|done].
  - destruct (decide (p = q)) as [->|Hq].
    + destruct (decide (q ∈ q :: l)) as [_|Hn]; [done|].
      destruct Hn. apply list_elem_of_here.
    + destruct (decide (p ∈ q :: l)) as [[?|?]%elem_of_cons|_]; done.
Qed.

Lemma bind_nil_all {X Y} (l : list X) (f : X → list Y) :
  (∀ x, x ∈ l → f x = []) → l ≫= f = [].
Proof.
  induction l as [|x l IH]; intros H; [done|].
  change (f x ++ (l ≫= f) = []).
  rewrite H by apply list_elem_of_here.
  apply IH. intros y Hy. apply H. by right.
Qed.

Lemma subtree_range_valid t : ∀ x, x ∈ subtree_range t → is_Some (get t x).
Proof.
  induction t as [n k pr cs IH] using Prim_tree_ind. intros x. simpl.
  intros [->|Hx]%elem_of_cons; [by eexists|].
  assert (Hgen : ∀ i, x ∈ children_range subtree_range i cs →
            ∃ j x' c, x = (i + j)%nat :: x' ∧ cs !! j = Some c ∧
                      x' ∈ subtree_range c).
  { clear Hx IH. induction cs as [|c cs IHcs]; intros i; simpl.
    - by intros ?%elem_of_nil.
    - intros [(x' & -> & Hx')%list_elem_of_fmap|Hx]%elem_of_app.
      + exists 0%nat, x', c. by rewrite Nat.add_0_r.
      + apply IHcs in Hx as (j & x' & c' & -> & Hc & Hx').
        exists (S j), x', c'. split_and!; [f_equal; lia|done|done]. }
  apply Hgen in Hx as (j & x' & c & -> & Hc & Hx'). simpl. rewrite Hc.
  rewrite Forall_lookup in IH. by apply (IH j c Hc).
Qed.

Lemma get_app s r x :
  get s (r ++ x) = get s r ≫= λ t, get t x.
Proof.
  revert s. induction r as [|i r IH]; intros s; simpl; [done|].
  destruct (GetChildren s !! i) as [c|]; simpl; [apply IH|done].
Qed.

(** The prims of a range are valid. *)
Lemma PrimRange_valid s r p : p ∈ PrimRange s r → is_Some (get s p).
Proof.
  destruct r as [r|]; simpl; [|by intros ?%elem_of_nil].
  destruct (get s r) as [t|] eqn:E; [|by intros ?%elem_of_nil].
  intros (x & -> & Hx)%list_elem_of_fmap.
  rewrite get_app, E. simpl. by apply subtree_range_valid.
Qed.

Lemma elem_of_add_colliders_ops o r a s p :
  o ∈ add_colliders_ops r a s p ↔
  p ∈ PrimRange s (Some r) ∧ o ∈ collide_ops a (type_at s p).
Proof. apply (elem_of_bind_only_at o p). Qed.

Lemma last_set_add_colliders_ops k r a s p :
  last_set k (add_colliders_ops r a s p)
  = if decide (p ∈ PrimRange s (Some r))
    then last_set k (collide_ops a (type_at s p)) else None.
Proof. apply (last_set_bind_only_at k p). Qed.

Lemma elem_of_find_matching_prims p m root_path ty s :
  p ∈ find_matching_prims m root_path ty s ↔
  p ∈ PrimRange s (root_prim_of s root_path) ∧
  name_has m s p = true ∧
  match ty with None => True | Some k => type_at s p = Some k end.
Proof.
  unfold find_matching_prims. rewrite !list_elem_of_In, List.filter_In.
  unfold name_has, name_at, type_at.
  split; intros [Hin H]; (split; [done|]); revert H.
  - destruct (get s p) as [t|]; simpl; [|done].
    intros [Hn Ht]%andb_true_iff. split; [done|].
    destruct ty as [k|]; [|done]. apply bool_decide_eq_true in Ht. by subst.
  - apply list_elem_of_In, PrimRange_valid in Hin as [t Ht]. rewrite Ht. simpl.
    intros [-> Hty]. simpl. destruct ty as [k|]; [|done].
    injection Hty as ->. by apply bool_decide_eq_true.
Qed.

Lemma last_set_hide_ops k m root_path ty s p :
  last_set k (hide_ops m root_path ty s p)
  = if decide (p ∈ find_matching_prims m root_path ty s)
    then last_set k [OSet "visibility" (VToken "invisible")] else None.
Proof. apply (last_set_bind_only_at k p). Qed.

Lemma elem_of_hide_ops o m root_path ty s p :
  o ∈ hide_ops m root_path ty s p →
  o = OSet "visibility" (VToken "invisible").
Proof.
  unfold hide_ops. intros [_ Ho]%(elem_of_bind_only_at o p).
  by apply list_elem_of_singleton in Ho.
Qed.

Lemma elem_of_collide_ops_triangle a ty :
  OApply PhysxTriangleMeshCollisionAPI ∈ collide_ops a ty ↔
  (∃ k, ty = Some k ∧ IsA_Mesh k = true) ∧ a = "triangleMesh".
Proof.
  rewrite list_elem_of_In. unfold collide_ops. destruct ty as [k|].
  - destruct (String.eqb_spec a "triangleMesh") as [->|Hne];
      destruct k; simpl; split;
      try (intros [[k' [[= <-] Hk]] Ha]); try done;
      try (intros H; split; [by eexists|done]);
      intuition (discriminate || auto).
  - split; [done|]. by intros [[k [[=] _]] _].
Qed.

Lemma is_mesh_at_valid s p : is_mesh_at s p = true → is_Some (props_at s p).
Proof.
  unfold is_mesh_at, type_at, props_at.
  destruct (get s p); simpl; [by eexists|done].
Qed.

Lemma elem_of_modify_ops_OApply a root_path c hide s p :
  OApply a ∈ modify_ops root_path c hide s p ↔
  OApply a ∈ modify_loop_ops root_path c s p.
Proof.
  unfold modify_ops. rewrite !elem_of_app. split; [|tauto].
  intros [H|[H|[H|H]]]; try done.
  - by apply elem_of_hide_ops in H.
  - by apply elem_of_hide_ops in H.
  - destruct hide; [by apply elem_of_hide_ops in H|by apply elem_of_nil in H].
Qed.

(** The pass applies the triangle-mesh schema to a prim exactly when the
    prim is a mesh in the subtree of a visited mesh whose resolved
    approximation is "triangleMesh". *)
Lemma triangle_applied_iff root_path c hide s p :
  OApply PhysxTriangleMeshCollisionAPI ∈ modify_ops root_path c hide s p ↔
  is_mesh_at s p = true ∧
  ∃ q, q ∈ PrimRange s (root_prim_of s root_path) ∧
       is_mesh_at s q = true ∧
       p ∈ PrimRange s (Some q) ∧
       collider_approx_at c s q = "triangleMesh".
Proof.
  rewrite elem_of_modify_ops_OApply. unfold modify_loop_ops.
  rewrite list_elem_of_bind. unfold modify_step_ops.
  assert (Hmesh : ∀ ty, (∃ k, ty = Some k ∧ IsA_Mesh k = true) ↔
            match ty with Some k => IsA_Mesh k | None => false end = true).
  { intros [k|]; split; try done; [by intros (? & [= <-] & ?)|by eexists|].
    by intros (? & [=] & _). }
  split.
  - intros (q & Ho & Hq). destruct (is_mesh_at s q) eqn:Eq;
      [|by apply elem_of_nil in Ho].
    apply elem_of_app in Ho as [Ho|Ho].
    + apply elem_of_add_colliders_ops in Ho as [Hp Ho].
      apply elem_of_collide_ops_triangle in Ho as [Hk Ha].
      split; [by apply Hmesh|]. by exists q.
    + destruct (name_has rigid_body_types s q); [|by apply elem_of_nil in Ho].
      unfold only_at in Ho. case_decide; [|by apply elem_of_nil in Ho].
      by apply list_elem_of_singleton in Ho.
  - intros (Hp & q & Hq & Hm & Hin & Ha). exists q. split; [|done].
    rewrite Hm. apply elem_of_app. left.
    apply elem_of_add_colliders_ops. split; [done|].
    apply elem_of_collide_ops_triangle. split; [by apply Hmesh|done].
Qed.

(** ** The approximation attribute *)

Lemma IsA_Mesh_inv k : IsA_Mesh k = true → k = Mesh.
Proof. by destruct k. Qed.

Lemma is_mesh_at_type s p : is_mesh_at s p = true → type_at s p = Some Mesh.
Proof.
  unfold is_mesh_at. destruct (type_at s p) as [k|]; [|done].
  by intros ->%IsA_Mesh_inv.
Qed.

Lemma collide_ops_mesh_coarse a :
  a ≠ "triangleMesh" →
  collide_ops a (Some Mesh)
  = [OApply CollisionAPI; OSet "physics:collisionEnabled" (VBool true);
     OApply MeshCollisionAPI; OSet "physics:approximation" (VToken a)].
Proof.
  intros Ha. unfold collide_ops. simpl.
  by destruct (String.eqb_spec a "triangleMesh").
Qed.

Lemma elem_of_collide_ops_approx v a ty :
  OSet "physics:approximation" v ∈ collide_ops a ty → a ≠ "triangleMesh".
Proof.
  rewrite list_elem_of_In. intros H ->. unfold collide_ops in H.
  destruct ty as [k|]; [|done].
  destruct k; simpl in H; intuition discriminate.
Qed.

(** Iterations on prims that come after [p] in the range do not reach [p]. *)
Lemma modify_step_ops_later c s r l1 p l2 q :
  PrimRange s r = l1 ++ p :: l2 → q ∈ l2 → modify_step_ops c q s p = [].
Proof.
  intros E Hq. pose proof (PrimRange_preorder _ _ _ _ _ _ E Hq) as Hnot.
  assert (Hne : p ≠ q).
  { intros ->. apply Hnot, PrimRange_self, (PrimRange_valid s r).
    rewrite E. set_solver. }
  unfold modify_step_ops. destruct (is_mesh_at s q); [|done].
  assert (Hadd : ∀ a, add_colliders_ops q a s p = []).
  { intros a. unfold add_colliders_ops. apply bind_nil_all. intros x Hx.
    unfold only_at. case_decide; [by subst x|done]. }
  rewrite Hadd. simpl. destruct (name_has rigid_body_types s q); [|done].
  unfold only_at. by case_decide.
Qed.

(** The approximation a visited mesh ends with is the one of its own
    iteration, when that is not "triangleMesh". *)
Lemma approximation_set_by_own_iteration root_path c hide s p :
  p ∈ PrimRange s (root_prim_of s root_path) →
  is_mesh_at s p = true →
  collider_approx_at c s p ≠ "triangleMesh" →
  last_set "physics:approximation" (modify_ops root_path c hide s p)
  = Some (VToken (collider_approx_at c s p)).
Proof.
  intros Hin Hmesh Ha.
  assert (Hloop : last_set "physics:approximation"
                    (modify_loop_ops root_path c s p)
                  = Some (VToken (collider_approx_at c s p))).
  { apply list_elem_of_split in Hin as (l1 & l2 & E).
    unfold modify_loop_ops. rewrite E, bind_app.
    change ((p :: l2) ≫= λ q, modify_step_ops c q s p)
      with (modify_step_ops c p s p ++ (l2 ≫= λ q, modify_step_ops c q s p)).
    rewrite (bind_nil_all l2)
      by (intros q Hq; by apply (modify_step_ops_later _ _ _ _ _ _ _ E)).
    rewrite app_nil_r, last_set_app.
    unfold modify_step_ops. rewrite Hmesh, last_set_app.
    assert (Hr : last_set "physics:approximation"
                   (if name_has rigid_body_types s p
                    then only_at p p [OApply RigidBodyAPI] else []) = None).
    { destruct (name_has rigid_body_types s p); [|done].
      unfold only_at. by case_decide. }
    rewrite Hr, last_set_add_colliders_ops.
    rewrite decide_True.
    - by rewrite (is_mesh_at_type _ _ Hmesh), collide_ops_mesh_coarse.
    - apply PrimRange_self, (PrimRange_valid s (root_prim_of s root_path)).
      rewrite E. set_solver. }
  unfold modify_ops. rewrite !last_set_app. by rewrite Hloop.
Qed.

(** With "triangleMesh" as the default, the pass never sets an
    approximation. *)
Lemma approximation_untouched_by_triangle root_path hide s p :
  last_set "physics:approximation"
    (modify_ops root_path "triangleMesh" hide s p) = None.
Proof.
  apply last_set_None. intros v Hv.
  unfold modify_ops in Hv. rewrite !elem_of_app in Hv.
  destruct Hv as [H|[H|[H|H]]].
  - by apply elem_of_hide_ops in H.
  - by apply elem_of_hide_ops in H.
  - destruct hide; [by apply elem_of_hide_ops in H|by apply elem_of_nil in H].
  - unfold modify_loop_ops in H.
    apply list_elem_of_bind in H as (q & H & _). unfold modify_step_ops in H.
    destruct (is_mesh_at s q); [|by apply elem_of_nil in H].
    apply elem_of_app in H as [H|H].
    + apply elem_of_add_colliders_ops in H as [_ H].
      apply elem_of_collide_ops_approx in H. apply H.
      unfold collider_approx_at. by destruct (name_has _ s q).
    + destruct (name_has rigid_body_types s q); [|by apply elem_of_nil in H].
      unfold only_at in H. case_decide; [|by apply elem_of_nil in H].
      by apply list_elem_of_singleton in H.
Qed.

(** A visited mesh whose own approximation is not "triangleMesh" gets the
    mesh collision schema. *)
Lemma mesh_collision_applied root_path c hide s p :
  p ∈ PrimRange s (root_prim_of s root_path) →
  is_mesh_at s p = true →
  collider_approx_at c s p ≠ "triangleMesh" →
  OApply MeshCollisionAPI ∈ modify_ops root_path c hide s p.
Proof.
  intros Hin Hmesh Ha. apply elem_of_modify_ops_OApply.
  unfold modify_loop_ops. apply list_elem_of_bind. exists p. split; [|done].
  unfold modify_step_ops. rewrite Hmesh. apply elem_of_app. left.
  apply elem_of_add_colliders_ops. split.
  - by apply PrimRange_self, (PrimRange_valid _ _ _ Hin).
  - rewrite (is_mesh_at_type _ _ Hmesh), collide_ops_mesh_coarse by done.
    set_solver.
Qed.

(** ** Visibility *)

Lemma last_set_visibility_loop root_path c s p :
  last_set "visibility" (modify_loop_ops root_path c s p) = None.
Proof.
  apply last_set_None. intros v Hv.
  unfold modify_loop_ops in Hv.
  apply list_elem_of_bind in Hv as (q & H & _). unfold modify_step_ops in H.
  destruct (is_mesh_at s q); [|by apply elem_of_nil in H].
  apply elem_of_app in H as [H|H].
  - apply elem_of_add_colliders_ops in H as [_ H]. unfold collide_ops in H.
    apply list_elem_of_In in H.
    destruct (type_at s p) as [k|]; [|done].
    destruct (IsA_Gprim k), (IsA_Mesh k),
      (String.eqb (collider_approx_at c s q) "triangleMesh");
      simpl in H; intuition discriminate.
  - destruct (name_has rigid_body_types s q); [|by apply elem_of_nil in H].
    unfold only_at in H. case_decide; [|by apply elem_of_nil in H].
    by apply list_elem_of_singleton in H.
Qed.

Lemma find_matching_prims_any_type p m root_path ty s :
  p ∈ find_matching_prims m root_path ty s →
  p ∈ find_matching_prims m root_path None s.
Proof.
  rewrite !elem_of_find_matching_prims. intros (H1 & H2 & _). done.
Qed.

(** The visibility the pass leaves on a valid prim: forced to "invisible"
    for the prims with the ceiling-light marker and, when walls are hidden,
    for the prims with an enclosing-structure marker; as it was for every
    other prim. *)
Lemma visibility_after_pass root_path c hide s p pr :
  props_at s p = Some pr →
  GetAttr (modify_environment root_path c hide s) p "visibility"
  = if bool_decide
         (p ∈ find_matching_prims ["001_SPLIT_GLA"] root_path None s)
       || (hide && bool_decide
             (p ∈ find_matching_prims ["_exterior"; "_ceiling"] root_path
                    None s))
    then Some (VToken "invisible")
    else attrs pr !! "visibility".
Proof.
  intros Hpr.
  rewrite (GetAttr_edits _ _ _ _ _ (modify_environment_edits _ _ _)), Hpr.
  unfold modify_ops.
  rewrite !last_set_app, last_set_visibility_loop, !last_set_hide_ops.
  pose proof (find_matching_prims_any_type p ["001_SPLIT_GLA"] root_path
                (Some Xform) s) as Hsub.
  destruct hide; simpl; rewrite ?last_set_hide_ops;
    repeat case_decide; repeat case_bool_decide; simpl; try done;
    exfalso; auto.
Qed.

(** ** The verifier *)

(** On snapshot records the tolerance plays no part: a dict has no
    [__sub__], so the comparison is [==]. *)
Lemma transforms_are_equal_dict r1 r2 tolerance :
  transforms_are_equal (PyDict r1) (PyDict r2) tolerance
  = TransformData_eqb r1 r2.
Proof. reflexivity. Qed.

Lemma verify_step_changes after st item :
  changes_detected (verify_step after st item) = 0%nat ↔
  changes_detected st = 0%nat ∧
  ∀ r', dict_get item.1 after = Some r' →
        TransformData_eqb item.2 r' = true.
Proof.
  destruct item as [k r]. unfold verify_step. simpl.
  destruct (dict_get k after) as [r'|].
  - rewrite transforms_are_equal_dict.
    destruct (TransformData_eqb r r') eqn:E; simpl.
    + split; [|by intros [? _]].
      intros H. split; [done|]. intros ? [= <-]. exact E.
    + split; [lia|]. intros [_ H]. specialize (H r' eq_refl). congruence.
  - split; [|by intros [? _]]. intros H. split; [done|]. by intros ? [=].
Qed.

Lemma verify_loop_changes after l : ∀ st,
  changes_detected (foldl (verify_step after) st l) = 0%nat ↔
  changes_detected st = 0%nat ∧
  Forall (λ item, ∀ r', dict_get item.1 after = Some r' →
                        TransformData_eqb item.2 r' = true) l.
Proof.
  induction l as [|item l IH]; intros st; simpl.
  - split; [by intros ?; split|by intros [? _]].
  - rewrite IH, verify_step_changes, Forall_cons. tauto.
Qed.

(** The verifier returns true iff every path of the first snapshot that is
    in the second has equal records in both. *)
Lemma verify_positions_unchanged_true before after :
  (verify_positions_unchanged before after).2 = true ↔
  Forall (λ item, ∀ r', dict_get item.1 after = Some r' →
                        TransformData_eqb item.2 r' = true) before.
Proof.
  unfold verify_positions_unchanged, verify_loop. simpl.
  rewrite Nat.eqb_eq, verify_loop_changes. simpl. tauto.
Qed.

(** ** Running the script *)

(** Unfolds the monad and the calls to the outside. *)
Ltac run_script_steps :=
  cbv beta iota zeta delta
    [mbind M_bind mret M_ret print emit print_all get_stage on_stage
     call_resolve_scale_issues call_update call_new_stage set_default_prim
     try_except sys_exit call_load_env setup_default_prim
     setup_verify_and_finish verify_positions_unchanged setup_epilogue
     stage defaultPrim trace fst snd].

Lemma app_assoc_events (a b c : list Event) : (a ++ b) ++ c = a ++ (b ++ c).
Proof. symmetry. apply app_assoc. Qed.

(** The viewer loop ends once the window is closed. *)
Lemma viewer_loop_returns env times : ∀ last_print_time w,
  ∃ s' evs, viewer_loop env last_print_time times w
            = (Return tt, mkWorld s' (defaultPrim w) (trace w ++ evs)).
Proof.
  induction times as [|t times IH]; intros last [s dp tr].
  - exists s, []. simpl. by rewrite app_nil_r.
  - simpl viewer_loop. run_script_steps.
    destruct (Qle_bool print_interval (t - last));
      [destruct (IH t (mkWorld (app_update env s) dp
                         ((((tr ++ [Printed (GREEN +:+ "=== PLEASE COLLECTED AND SAVE THE CURRENT SCENE BEFORE CLOSING THE WINDOW! ===" +:+ RESET)]) ++
                            [Printed (GREEN +:+ "=== PLEASE SELECT FLAT COLLECTION AND GROUP BY MDL ===" +:+ RESET)]) ++
                           [Printed ""]) ++ [AppUpdate]))) as (s' & evs & Hevs)
      |destruct (IH last (mkWorld (app_update env s) dp (tr ++ [AppUpdate])))
         as (s' & evs & Hevs)];
      rewrite Hevs; simpl; rewrite !app_assoc_events;
      eexists _, _; reflexivity.
Qed.

(** What [setup_infinigen_scene] does when the import raises. *)
Lemma setup_after_failed_load env usd_file_path coarse hide w e s_left :
  load_env env usd_file_path (new_stage env) = inr (e, s_left) →
  setup_infinigen_scene env usd_file_path coarse hide w
  = (Return tt,
     mkWorld
       (resolve_scale_issues env
          (modify_environment (Some ["Environment"]) coarse hide
             (app_update env s_left)))
       (GetPrimAtPath s_left ["Environment"])
       (trace w ++
        [Printed "=== Starting Infinigen Environment Setup ===";
         Printed ("File: " +:+ usd_file_path);
         Printed ("Coarse approximation: " +:+ coarse);
         Printed ("Hide walls: " +:+ py_bool hide);
         Printed "Creating new stage...";
         NewStage;
         Printed ("Loading environment: " +:+ usd_file_path);
         LoadEnv usd_file_path ["Environment"] true;
         Printed (RED +:+ "Loading failed: " +:+ e +:+ RESET);
         Printed "Setting /Environment as default prim...";
         Printed (default_prim_line s_left ["Environment"]);
         AppUpdate;
         Printed "Capturing initial object positions...";
         Printed ("Captured " +:+
                pretty (length (capture_transforms (app_update env s_left)
                                  ["Environment"])) +:+
                " object transforms");
         Printed "Setting up environment..."] ++
        (Printed <$> modify_environment_prints (Some ["Environment"]) hide
                     (app_update env s_left)) ++
        [Printed "Verifying object positions..."] ++
        (Printed <$> (verify_positions_unchanged
                      (capture_transforms (app_update env s_left)
                         ["Environment"])
                      (capture_transforms
                         (modify_environment (Some ["Environment"]) coarse
                            hide (app_update env s_left))
                         ["Environment"])).1) ++
        setup_epilogue)).
Proof.
  intros Hload. destruct w as [s dp tr]. unfold setup_infinigen_scene.
  run_script_steps. rewrite Hload. unfold default_prim_line.
  destruct (GetPrimAtPath s_left ["Environment"]) as [h|];
    run_script_steps; rewrite !app_assoc_events; reflexivity.
Qed.

(** ** Rigid bodies *)

Lemma count_occ_elem_of a (l : list API) :
  a ∈ l → (1 ≤ count_occ API_eq_dec l a)%nat.
Proof.
  rewrite list_elem_of_In. intros H.
  by apply (count_occ_In API_eq_dec) in H.
Qed.

(** A visited mesh whose name contains a rigid-body marker carries the
    rigid-body schema after the pass, listed once when the scene did not
    list it. *)
Lemma rigid_body_attached_once root_path c hide s p :
  p ∈ PrimRange s (root_prim_of s root_path) →
  is_mesh_at s p = true →
  name_has rigid_body_types s p = true →
  HasAPI (modify_environment root_path c hide s) p RigidBodyAPI = true ∧
  (schema_count s p RigidBodyAPI = 0%nat →
   schema_count (modify_environment root_path c hide s) p RigidBodyAPI
   = 1%nat).
Proof.
  intros Hin Hmesh Hrigid.
  pose proof (modify_environment_edits root_path c hide) as He.
  destruct (is_mesh_at_valid _ _ Hmesh) as [pr Hpr].
  assert (Hop : OApply RigidBodyAPI ∈ modify_ops root_path c hide s p).
  { apply elem_of_modify_ops_OApply. unfold modify_loop_ops.
    apply list_elem_of_bind. exists p. split; [|done].
    unfold modify_step_ops. rewrite Hmesh, Hrigid. apply elem_of_app. right.
    unfold only_at. rewrite decide_True by done. apply list_elem_of_here. }
  split.
  - apply (HasAPI_edits _ _ _ _ _ He). split; [by eexists|by right].
  - unfold schema_count. rewrite (proj2 (proj2 He s) p), Hpr. simpl.
    intros H0.
    pose proof (count_apiSchemas_run RigidBodyAPI
                  (modify_ops root_path c hide s p) pr) as Hle.
    assert (Hge : (1 ≤ count_occ API_eq_dec
                         (apiSchemas (run (modify_ops root_path c hide s p) pr))
                         RigidBodyAPI)%nat).
    { apply count_occ_elem_of, apiSchemas_run. by right. }
    lia.
Qed.

(** ** Attributes set by the edits *)

Lemma last_set_member k v ops : last_set k ops = Some v → OSet k v ∈ ops.
Proof.
  induction ops as [|o ops IH]; simpl; [done|].
  destruct (last_set k ops) as [w|].
  - intros [= ->]. right. by apply IH.
  - destruct o as [a|k' w]; [done|]. case_decide; [subst k'|done].
    intros [= ->]. apply list_elem_of_here.
Qed.

Lemma last_set_const k c ops :
  (∀ v, OSet k v ∈ ops → v = c) → OSet k c ∈ ops → last_set k ops = Some c.
Proof.
  intros Hall Hin. destruct (last_set k ops) as [v|] eqn:E.
  - f_equal. by apply Hall, last_set_member.
  - exfalso. revert Hin E. clear Hall.
    induction ops as [|o ops IH]; simpl; [by intros ?%elem_of_nil|].
    intros [<-|Hin]%elem_of_cons.
    + destruct (last_set k ops); [done|]. by rewrite decide_True.
    + destruct (last_set k ops) eqn:E'; [done|]. intros _. by apply IH.
Qed.

Lemma OSet_collide_ops k v a ty :
  OSet k v ∈ collide_ops a ty →
  (k = "physics:collisionEnabled" ∧ v = VBool true) ∨
  (k = "physics:approximation" ∧ v = VToken a).
Proof.
  rewrite list_elem_of_In. unfold collide_ops. destruct ty as [ty|]; [|done].
  destruct (String.eqb a "triangleMesh"), ty; simpl;
    intuition (try discriminate);
    match goal with H : OSet _ _ = OSet _ _ |- _ => injection H as <- <- end;
    auto.
Qed.

Lemma collider_approx_at_coarse S s q :
  collider_approx_at S s q ≠ "triangleMesh" ↔
  name_has fine_collider_types s q = false ∧ S ≠ "triangleMesh".
Proof.
  unfold collider_approx_at.
  destruct (name_has fine_collider_types s q); split; try done.
  - by intros [[=] _].
  - by intros [_ ?].
Qed.

Lemma collider_approx_at_value S s q :
  collider_approx_at S s q ≠ "triangleMesh" → collider_approx_at S s q = S.
Proof.
  unfold collider_approx_at. by destruct (name_has fine_collider_types s q).
Qed.

(** The pass applies the mesh collision schema to a mesh exactly when the
    mesh is in the subtree of a visited mesh whose resolved approximation
    is not "triangleMesh". *)
Lemma mesh_collision_applied_iff root_path S hide s p :
  is_mesh_at s p = true →
  OApply MeshCollisionAPI ∈ modify_ops root_path S hide s p ↔
  S ≠ "triangleMesh" ∧ below_coarse_mesh root_path s p.
Proof.
  intros Hmesh. pose proof (is_mesh_at_type _ _ Hmesh) as Ety.
  rewrite elem_of_modify_ops_OApply. unfold modify_loop_ops.
  rewrite list_elem_of_bind. unfold modify_step_ops, below_coarse_mesh.
  split.
  - intros (q & Ho & Hq). destruct (is_mesh_at s q) eqn:Eq;
      [|by apply elem_of_nil in Ho].
    apply elem_of_app in Ho as [Ho|Ho].
    + apply elem_of_add_colliders_ops in Ho as [Hp Ho]. rewrite Ety in Ho.
      destruct (decide (collider_approx_at S s q = "triangleMesh")) as [E|E].
      * rewrite E in Ho. apply list_elem_of_In in Ho. simpl in Ho.
        intuition discriminate.
      * apply collider_approx_at_coarse in E as [Hf HS].
        split; [done|]. by exists q.
    + destruct (name_has rigid_body_types s q); [|by apply elem_of_nil in Ho].
      unfold only_at in Ho. case_decide; [|by apply elem_of_nil in Ho].
      by apply list_elem_of_singleton in Ho.
  - intros (HS & q & Hq & Hp & Hm & Hf). exists q. split; [|done].
    rewrite Hm. apply elem_of_app. left.
    apply elem_of_add_colliders_ops. split; [done|]. rewrite Ety.
    rewrite collide_ops_mesh_coarse
      by (by apply collider_approx_at_coarse).
    rewrite !elem_of_cons. auto.
Qed.

(** Whatever approximation the pass sets is the caller's default, set
    from a visited mesh without a fine-collider marker. *)
Lemma approximation_set_by_coarse v root_path S hide s p :
  OSet "physics:approximation" v ∈ modify_ops root_path S hide s p →
  v = VToken S ∧ S ≠ "triangleMesh" ∧ below_coarse_mesh root_path s p.
Proof.
  unfold modify_ops. rewrite !elem_of_app.
  intros [H|[H|[H|H]]]; try (by apply elem_of_hide_ops in H).
  - destruct hide; [by apply elem_of_hide_ops in H|by apply elem_of_nil in H].
  - unfold modify_loop_ops in H.
    apply list_elem_of_bind in H as (q & H & Hq). unfold modify_step_ops in H.
    destruct (is_mesh_at s q) eqn:Em; [|by apply elem_of_nil in H].
    apply elem_of_app in H as [H|H].
    + apply elem_of_add_colliders_ops in H as [Hp H].
      pose proof (elem_of_collide_ops_approx _ _ _ H) as Hne.
      apply OSet_collide_ops in H as [[[=] _]|[_ ->]].
      pose proof (proj1 (collider_approx_at_coarse S s q) Hne) as [Hf HS].
      rewrite (collider_approx_at_value _ _ _ Hne).
      split_and!; [done..|]. by exists q.
    + destruct (name_has rigid_body_types s q); [|by apply elem_of_nil in H].
      unfold only_at in H. case_decide; [|by apply elem_of_nil in H].
      by apply list_elem_of_singleton in H.
Qed.

Lemma approximation_below_coarse root_path S hide s p :
  is_mesh_at s p = true →
  S ≠ "triangleMesh" → below_coarse_mesh root_path s p →
  last_set "physics:approximation" (modify_ops root_path S hide s p)
  = Some (VToken S).
Proof.
  intros Hmesh HS (q & Hq & Hp & Hm & Hf).
  apply last_set_const.
  - by intros v [-> _]%approximation_set_by_coarse.
  - unfold modify_ops. rewrite !elem_of_app. do 3 right.
    unfold modify_loop_ops. apply list_elem_of_bind. exists q. split; [|done].
    unfold modify_step_ops. rewrite Hm. apply elem_of_app. left.
    apply elem_of_add_colliders_ops. split; [done|].
    rewrite (is_mesh_at_type _ _ Hmesh).
    assert (Hne : collider_approx_at S s q ≠ "triangleMesh")
      by (by apply collider_approx_at_coarse).
    rewrite collide_ops_mesh_coarse by done.
    rewrite (collider_approx_at_value _ _ _ Hne), !elem_of_cons. auto.
Qed.

(** * The specification's properties *)

(** ** C1: the pass leaves transforms alone *)

(** C1.  For every scene, one run of [modify_environment] keeps every
    prim (names, types and hierarchy are unchanged) and leaves the
    transform attributes (translate, rotateXYZ, scale, orient) of every
    prim at their values; indeed every attribute other than the visibility
    flag and the collider attributes keeps its value, and a snapshot taken
    after the pass equals the one taken before. *)
Theorem modify_environment_preserves_transforms
    (root_path : option SdfPath) (coarse : string) (hide : bool)
    (s : Stage) (p : Handle) :
  name_at (modify_environment root_path coarse hide s) p = name_at s p ∧
  type_at (modify_environment root_path coarse hide s) p = type_at s p ∧
  Forall (λ k, GetAttr (modify_environment root_path coarse hide s) p k
               = GetAttr s p k) transform_attrs ∧
  (∀ k, k ∈ marker_attrs ∨
        GetAttr (modify_environment root_path coarse hide s) p k
        = GetAttr s p k) ∧
  (∀ path, capture_transforms (modify_environment root_path coarse hide s) path
           = capture_transforms s path).
Proof.
  pose proof (modify_environment_skel root_path coarse hide s) as Hsk.
  assert (Htr : ∀ q k, k ∈ transform_attrs →
            GetAttr (modify_environment root_path coarse hide s) q k
            = GetAttr s q k).
  { intros q k Hk. apply modify_environment_frame.
    rewrite list_elem_of_In in *. unfold transform_attrs, marker_attrs in *.
    simpl in *. intuition (subst; discriminate). }
  split_and!.
  - by rewrite <- name_at_skel, Hsk, name_at_skel.
  - by rewrite <- type_at_skel, Hsk, type_at_skel.
  - apply Forall_forall. intros k Hk. by apply Htr.
  - intros k. destruct (decide (k ∈ marker_attrs)); [by left|right].
    by apply modify_environment_frame.
  - intros path. by apply capture_transforms_ext.
Qed.

(** ** C2: fine colliders *)

(** C2 as stated fails.  In [workshop], the mesh [leg_wall] has a
    fine-collider marker in its name and lies below the mesh [Table_01],
    whose name has none.  The iteration on [Table_01] runs [add_colliders]
    over its subtree with the caller's default and sets the approximation
    of [leg_wall] to it; the later iteration on [leg_wall] applies the
    triangle-mesh schema and leaves that value in place.  So what the pass
    leaves on [leg_wall] does depend on the default: "convexHull" with the
    one, "boundingCube" with the other. *)
Lemma fine_collider_claim_fails :
  ¬ (∀ (root_path : option SdfPath) (S S' : string) (hide : bool) (s : Stage)
       (p : Handle),
       p ∈ PrimRange s (root_prim_of s root_path) →
       is_mesh_at s p = true →
       name_has fine_collider_types s p = true →
       HasAPI (modify_environment root_path S hide s) p
         PhysxTriangleMeshCollisionAPI = true ∧
       HasAPI (modify_environment root_path S hide s) p MeshCollisionAPI
       = HasAPI (modify_environment root_path S' hide s) p MeshCollisionAPI ∧
       GetAttr (modify_environment root_path S hide s) p
         "physics:approximation"
       = GetAttr (modify_environment root_path S' hide s) p
           "physics:approximation").
Proof.
  intros H.
  destruct (H Environment "convexHull" "boundingCube" true workshop [0; 0; 0])
    as (_ & _ & Happrox).
  - vm_compute. repeat constructor.
  - reflexivity.
  - reflexivity.
  - vm_compute in Happrox. discriminate.
Qed.

(** C2, amended.  For a mesh visited by the pass whose name contains a
    fine-collider marker, and the caller's default [S]: the triangle-mesh
    schema is on the mesh after the pass, whatever [S].  The mesh-collision
    schema is on it after the pass exactly when it was before, or [S] is
    not "triangleMesh" and the mesh lies in the subtree of a visited mesh
    whose name contains no fine-collider marker; in the latter case its
    approximation is [S] after the pass, and otherwise its approximation is
    left as it was. *)
Theorem fine_collider_resolution
    (root_path : option SdfPath) (S : string) (hide : bool)
    (s : Stage) (p : Handle) :
  p ∈ PrimRange s (root_prim_of s root_path) →
  is_mesh_at s p = true →
  name_has fine_collider_types s p = true →
  HasAPI (modify_environment root_path S hide s) p
    PhysxTriangleMeshCollisionAPI = true ∧
  (HasAPI (modify_environment root_path S hide s) p MeshCollisionAPI = true ↔
   HasAPI s p MeshCollisionAPI = true ∨
   (S ≠ "triangleMesh" ∧ below_coarse_mesh root_path s p)) ∧
  (S ≠ "triangleMesh" ∧ below_coarse_mesh root_path s p →
   GetAttr (modify_environment root_path S hide s) p "physics:approximation"
   = Some (VToken S)) ∧
  (¬ (S ≠ "triangleMesh" ∧ below_coarse_mesh root_path s p) →
   GetAttr (modify_environment root_path S hide s) p "physics:approximation"
   = GetAttr s p "physics:approximation").
Proof.
  intros Hin Hmesh Hfine.
  pose proof (modify_environment_edits root_path S hide) as He.
  pose proof (is_mesh_at_valid _ _ Hmesh) as [pr Hpr].
  split_and!.
  - apply (HasAPI_edits _ _ _ _ _ He). split; [by eexists|]. right.
    apply triangle_applied_iff. split; [done|]. exists p.
    split_and!; try done.
    + by apply PrimRange_self, (PrimRange_valid _ _ _ Hin).
    + unfold collider_approx_at. by rewrite Hfine.
  - rewrite (HasAPI_edits _ _ _ _ _ He), mesh_collision_applied_iff by done.
    split; [tauto|]. intros H. split; [by eexists|done].
  - intros [HS Hbelow].
    rewrite (GetAttr_edits _ _ _ _ _ He), Hpr.
    by rewrite approximation_below_coarse.
  - intros Hno. rewrite (GetAttr_edits _ _ _ _ _ He), Hpr.
    rewrite last_set_None.
    + unfold GetAttr. by rewrite Hpr.
    + intros v (_ & HS & Hbelow)%approximation_set_by_coarse. by apply Hno.
Qed.

Lemma fine_collider_resolution_witness :
  [0; 0; 0] ∈ PrimRange workshop (root_prim_of workshop Environment) ∧
  is_mesh_at workshop [0; 0; 0] = true ∧
  name_has fine_collider_types workshop [0; 0; 0] = true ∧
  HasAPI (modify_environment Environment "convexHull" true workshop)
    [0; 0; 0] PhysxTriangleMeshCollisionAPI = true ∧
  HasAPI (modify_environment Environment "convexHull" true workshop)
    [0; 0; 0] MeshCollisionAPI = true ∧
  GetAttr (modify_environment Environment "convexHull" true workshop)
    [0; 0; 0] "physics:approximation" = Some (VToken "convexHull").
Proof.
  assert (H1 : [0; 0; 0] ∈ PrimRange workshop
                 (root_prim_of workshop Environment))
    by (vm_compute; repeat constructor).
  assert (H2 : [0; 0] ∈ PrimRange workshop (root_prim_of workshop Environment))
    by (vm_compute; repeat constructor).
  assert (H3 : [0; 0; 0] ∈ PrimRange workshop (Some [0; 0]))
    by (vm_compute; repeat constructor).
  assert (Hbelow : "convexHull" ≠ "triangleMesh" ∧
                   below_coarse_mesh Environment workshop [0; 0; 0]).
  { split; [discriminate|]. exists [0; 0].
    split_and!; [exact H2|exact H3|reflexivity..]. }
  destruct (fine_collider_resolution Environment "convexHull" true workshop
              [0; 0; 0] H1 eq_refl eq_refl) as (Ht & Hm & Ha & _).
  split_and!; [exact H1|reflexivity|reflexivity|exact Ht| |exact (Ha Hbelow)].
  apply Hm. right. exact Hbelow.
Defined.

(** ** C3: coarse colliders *)

(** C3 as stated fails.  In [room], the mesh [panel] has no fine-collider
    marker in its name and lies below the mesh [north_wall], whose name has
    one.  With the default "convexHull", the iteration on [north_wall] runs
    [add_colliders] over its whole subtree and applies the triangle-mesh
    schema to [panel]; the later iteration on [panel] sets the approximation
    to "convexHull" and leaves that schema in place. *)
Lemma coarse_collider_claim_fails :
  ¬ (∀ (root_path : option SdfPath) (S : string) (hide : bool) (s : Stage)
       (p : Handle),
       p ∈ PrimRange s (root_prim_of s root_path) →
       is_mesh_at s p = true →
       name_has fine_collider_types s p = false →
       HasAPI (modify_environment root_path S hide s) p MeshCollisionAPI
         = true ∧
       GetAttr (modify_environment root_path S hide s) p
         "physics:approximation" = Some (VToken S) ∧
       (S ≠ "triangleMesh" →
        HasAPI (modify_environment root_path S hide s) p
          PhysxTriangleMeshCollisionAPI = false)).
Proof.
  intros H.
  destruct (H Environment "convexHull" true room [0; 0; 0]) as (_ & _ & Hno).
  - vm_compute. repeat constructor.
  - reflexivity.
  - reflexivity.
  - assert (Hne : "convexHull" ≠ "triangleMesh") by discriminate.
    specialize (Hno Hne). vm_compute in Hno. discriminate.
Qed.

(** C3, amended.  For a mesh visited by the pass whose name contains no
    fine-collider marker, and the caller's default [S]:
    - if [S] is not "triangleMesh", the mesh carries the mesh collision
      schema and its approximation is [S] after the pass, also below a mesh
      with a fine-collider marker; the triangle-mesh schema is on it after
      the pass exactly when it was before or the mesh lies in the subtree
      of a visited mesh whose name contains a fine-collider marker;
    - if [S] is "triangleMesh", the mesh carries the triangle-mesh schema
      after the pass and its approximation attribute is left as it was. *)
Theorem coarse_collider_resolution
    (root_path : option SdfPath) (S : string) (hide : bool)
    (s : Stage) (p : Handle) :
  p ∈ PrimRange s (root_prim_of s root_path) →
  is_mesh_at s p = true →
  name_has fine_collider_types s p = false →
  collider_approx_at S s p = S ∧
  (S ≠ "triangleMesh" →
   HasAPI (modify_environment root_path S hide s) p MeshCollisionAPI = true ∧
   GetAttr (modify_environment root_path S hide s) p "physics:approximation"
     = Some (VToken S) ∧
   (HasAPI (modify_environment root_path S hide s) p
      PhysxTriangleMeshCollisionAPI = true ↔
    HasAPI s p PhysxTriangleMeshCollisionAPI = true ∨
    ∃ q, q ∈ PrimRange s (root_prim_of s root_path) ∧
         p ∈ PrimRange s (Some q) ∧
         is_mesh_at s q = true ∧
         name_has fine_collider_types s q = true)) ∧
  (S = "triangleMesh" →
   HasAPI (modify_environment root_path S hide s) p
     PhysxTriangleMeshCollisionAPI = true ∧
   GetAttr (modify_environment root_path S hide s) p "physics:approximation"
     = GetAttr s p "physics:approximation").
Proof.
  intros Hin Hmesh Hfine.
  pose proof (modify_environment_edits root_path S hide) as He.
  pose proof (is_mesh_at_valid _ _ Hmesh) as [pr Hpr].
  assert (Hself : p ∈ PrimRange s (Some p))
    by (by apply PrimRange_self, (PrimRange_valid _ _ _ Hin)).
  assert (Ha : collider_approx_at S s p = S)
    by (unfold collider_approx_at; by rewrite Hfine).
  split_and!; [done| |].
  - intros HS. split_and!.
    + apply (HasAPI_edits _ _ _ _ _ He). split; [by eexists|]. right.
      apply mesh_collision_applied; [done..|by rewrite Ha].
    + rewrite (GetAttr_edits _ _ _ _ _ He), Hpr.
      rewrite approximation_set_by_own_iteration by (by rewrite ?Ha).
      by rewrite Ha.
    + rewrite (HasAPI_edits _ _ _ _ _ He), triangle_applied_iff.
      split.
      * intros [_ [H|(_ & q & Hq & Hm & Hp & Hq')]]; [by left|right].
        exists q. split_and!; try done.
        unfold collider_approx_at in Hq'.
        by destruct (name_has fine_collider_types s q).
      * intros H. split; [by eexists|].
        destruct H as [H|(q & Hq & Hp & Hm & Hf)]; [by left|right].
        split; [done|]. exists q. split_and!; try done.
        unfold collider_approx_at. by rewrite Hf.
  - intros ->. split.
    + apply (HasAPI_edits _ _ _ _ _ He). split; [by eexists|]. right.
      apply triangle_applied_iff. split; [done|]. by exists p.
    + rewrite (GetAttr_edits _ _ _ _ _ He), Hpr.
      rewrite approximation_untouched_by_triangle.
      unfold GetAttr. by rewrite Hpr.
Qed.

Lemma coarse_collider_resolution_witness :
  [0; 0; 0] ∈ PrimRange room (root_prim_of room Environment) ∧
  is_mesh_at room [0; 0; 0] = true ∧
  name_has fine_collider_types room [0; 0; 0] = false ∧
  HasAPI (modify_environment Environment "convexHull" true room) [0; 0; 0]
    MeshCollisionAPI = true ∧
  GetAttr (modify_environment Environment "convexHull" true room) [0; 0; 0]
    "physics:approximation" = Some (VToken "convexHull") ∧
  HasAPI (modify_environment Environment "convexHull" true room) [0; 0; 0]
    PhysxTriangleMeshCollisionAPI = true.
Proof.
  assert (H1 : [0; 0; 0] ∈ PrimRange room (root_prim_of room Environment))
    by (vm_compute; repeat constructor).
  assert (H2 : [0; 0] ∈ PrimRange room (root_prim_of room Environment))
    by (vm_compute; repeat constructor).
  assert (H3 : [0; 0; 0] ∈ PrimRange room (Some [0; 0]))
    by (vm_compute; repeat constructor).
  destruct (coarse_collider_resolution Environment "convexHull" true room
              [0; 0; 0] H1 eq_refl eq_refl) as (_ & Hcoarse & _).
  destruct Hcoarse as (Hm & Ha & Ht); [discriminate|].
  split_and!; [exact H1|reflexivity|reflexivity|exact Hm|exact Ha|].
  apply Ht. right. exists [0; 0]. split_and!; [exact H2|exact H3|reflexivity..].
Defined.

(** ** C5: running the pass twice *)

(** C5.  A second run of [modify_environment] with the same arguments
    changes nothing: the stage after two runs is the stage after one, so it
    adds no schema and makes no further visibility change.  No schema, the
    rigid-body one included, is listed more than once on a prim after two
    runs, unless the scene listed it more than once to begin with. *)
Theorem modify_environment_idempotent
    (root_path : option SdfPath) (coarse : string) (hide : bool) (s : Stage) :
  modify_environment root_path coarse hide
    (modify_environment root_path coarse hide s)
  = modify_environment root_path coarse hide s ∧
  ∀ p a,
    (schema_count (modify_environment root_path coarse hide
                     (modify_environment root_path coarse hide s)) p a
     ≤ Nat.max 1 (schema_count s p a))%nat.
Proof.
  pose proof (modify_environment_edits root_path coarse hide) as He.
  pose proof (modify_environment_skel root_path coarse hide) as Hsk.
  assert (Hidem : modify_environment root_path coarse hide
                    (modify_environment root_path coarse hide s)
                  = modify_environment root_path coarse hide s).
  { apply stage_ext; [apply Hsk|]. intros p.
    rewrite (proj2 (proj2 He _) p).
    rewrite (edits_skel _ _ _ s p He (Hsk s)).
    rewrite (proj2 (proj2 He s) p).
    destruct (props_at s p); simpl; [|done]. by rewrite run_idem. }
  split; [done|]. intros p a. rewrite Hidem. unfold schema_count.
  rewrite (proj2 (proj2 He s) p).
  destruct (props_at s p); simpl; [|lia]. apply count_apiSchemas_run.
Qed.

(** ** C9: visibility *)

(** C9 as stated fails.  In [workshop], the transform group
    [001_SPLIT_GLA_ceiling] has a "_ceiling" marker in its name and the
    ceiling-light marker as well.  With the hide-walls flag off, the pass
    still finds it among the ceiling lights and sets its visibility to
    "invisible": it is not left untouched. *)
Lemma exterior_untouched_claim_fails :
  ¬ (∀ (root_path : option SdfPath) (coarse : string) (s : Stage)
       (p : Handle),
       p ∈ PrimRange s (root_prim_of s root_path) →
       name_has ["_exterior"; "_ceiling"] s p = true →
       GetAttr (modify_environment root_path coarse false s) p "visibility"
       = GetAttr s p "visibility").
Proof.
  intros H.
  assert (Hin : [0; 1] ∈ PrimRange workshop (root_prim_of workshop Environment))
    by (vm_compute; repeat constructor).
  specialize (H Environment "convexHull" workshop [0; 1] Hin eq_refl).
  vm_compute in H. discriminate.
Qed.

(** C9, amended.  For a prim visited by the pass:
    - if its name contains the ceiling-light marker, its visibility is
      "invisible" after the pass, whatever the hide-walls flag;
    - if its name contains "_exterior" or "_ceiling" and the flag is set,
      its visibility is "invisible" after the pass;
    - if its name contains "_exterior" or "_ceiling", the flag is not set
      and its name does not contain the ceiling-light marker, its
      visibility is left as it was;
    and the pass removes no prim: every handle designates a prim of the
    same name and type before and after. *)
Theorem visibility_rules
    (root_path : option SdfPath) (coarse : string) (hide : bool)
    (s : Stage) (p : Handle) :
  p ∈ PrimRange s (root_prim_of s root_path) →
  (name_has ["001_SPLIT_GLA"] s p = true →
   GetAttr (modify_environment root_path coarse hide s) p "visibility"
   = Some (VToken "invisible")) ∧
  (name_has ["_exterior"; "_ceiling"] s p = true → hide = true →
   GetAttr (modify_environment root_path coarse hide s) p "visibility"
   = Some (VToken "invisible")) ∧
  (name_has ["_exterior"; "_ceiling"] s p = true → hide = false →
   name_has ["001_SPLIT_GLA"] s p = false →
   GetAttr (modify_environment root_path coarse hide s) p "visibility"
   = GetAttr s p "visibility") ∧
  (∀ q, name_at (modify_environment root_path coarse hide s) q = name_at s q ∧
        type_at (modify_environment root_path coarse hide s) q = type_at s q).
Proof.
  intros Hin.
  assert (Hv : ∃ pr, props_at s p = Some pr).
  { destruct (PrimRange_valid _ _ _ Hin) as [t Ht].
    exists (GetProps t). unfold props_at. by rewrite Ht. }
  destruct Hv as [pr Hpr].
  pose proof (visibility_after_pass root_path coarse hide s p pr Hpr) as Hvis.
  split_and!.
  - intros Hn. rewrite Hvis, bool_decide_eq_true_2; [done|].
    by apply elem_of_find_matching_prims.
  - intros Hn ->. rewrite Hvis.
    rewrite (bool_decide_eq_true_2
               (p ∈ find_matching_prims ["_exterior"; "_ceiling"] _ _ _));
      [|by apply elem_of_find_matching_prims].
    by rewrite orb_true_r.
  - intros _ -> Hno. rewrite Hvis, bool_decide_eq_false_2.
    + unfold GetAttr. by rewrite Hpr.
    + intros (_ & Hn & _)%elem_of_find_matching_prims. congruence.
  - intros q. pose proof (modify_environment_skel root_path coarse hide s) as E.
    split.
    + by rewrite <- name_at_skel, E, name_at_skel.
    + by rewrite <- type_at_skel, E, type_at_skel.
Qed.

Lemma visibility_rules_witness :
  [0; 3; 0] ∈ PrimRange room (root_prim_of room Environment) ∧
  [0; 4] ∈ PrimRange room (root_prim_of room Environment) ∧
  GetAttr (modify_environment Environment "convexHull" false room) [0; 3; 0]
    "visibility" = Some (VToken "invisible") ∧
  GetAttr (modify_environment Environment "convexHull" true room) [0; 4]
    "visibility" = Some (VToken "invisible") ∧
  GetAttr (modify_environment Environment "convexHull" false room) [0; 4]
    "visibility" = GetAttr room [0; 4] "visibility".
Proof.
  assert (H3 : [0; 3; 0] ∈ PrimRange room (root_prim_of room Environment))
    by (vm_compute; repeat constructor).
  assert (H4 : [0; 4] ∈ PrimRange room (root_prim_of room Environment))
    by (vm_compute; repeat constructor).
  destruct (visibility_rules Environment "convexHull" false room [0; 3; 0] H3)
    as (Hlight & _).
  destruct (visibility_rules Environment "convexHull" true room [0; 4] H4)
    as (_ & Hwalls & _).
  destruct (visibility_rules Environment "convexHull" false room [0; 4] H4)
    as (_ & _ & Hkeep & _).
  split_and!; [exact H3|exact H4|..].
  - apply Hlight; reflexivity.
  - apply Hwalls; reflexivity.
  - apply Hkeep; reflexivity.
Defined.

(** ** C4: the verifier's tolerance *)

(** C4.  The verifier does not apply its tolerance.  The two snapshots
    [ball_before] and [ball_after] hold one path whose translate values are
    5e-7 apart, less than 1e-6, and agree elsewhere; the verifier reports
    the prim as moved and returns false.  On snapshot records
    [transforms_are_equal] is plain equality, whatever the tolerance. *)
Theorem verify_applies_no_tolerance :
  Qlt_bool (Qabs (0 - (1 # 2000000))) (1 # 1000000) = true ∧
  verify_positions_unchanged ball_before ball_after
  = ([YELLOW +:+ "Position changed for: /Environment/ball" +:+ RESET;
      " Position verification: 1/1 objects moved"],
     false) ∧
  ∀ r1 r2 tolerance,
    transforms_are_equal (PyDict r1) (PyDict r2) tolerance
    = TransformData_eqb r1 r2.
Proof.
  split_and!; [reflexivity|by vm_compute|].
  intros r1 r2 tolerance. apply transforms_are_equal_dict.
Qed.

(** ** C10: an invalid root *)

(** C10.  Where the root path designates no prim, [capture_transforms]
    returns the empty snapshot; the verifier over two such snapshots checks
    no path, reports that all 0 positions are preserved, and returns true. *)
Theorem capture_transforms_invalid_root (s : Stage) (root_path : SdfPath) :
  GetPrimAtPath s root_path = None →
  capture_transforms s root_path = [] ∧
  ∀ s' root_path',
    GetPrimAtPath s' root_path' = None →
    total_checked (verify_loop (capture_transforms s root_path)
                     (capture_transforms s' root_path')) = 0%nat ∧
    verify_positions_unchanged (capture_transforms s root_path)
      (capture_transforms s' root_path')
    = ([" Position verification: All 0 object positions preserved"], true).
Proof.
  intros H.
  assert (E : ∀ s' root_path', GetPrimAtPath s' root_path' = None →
            capture_transforms s' root_path' = []).
  { intros s' root_path' H'. unfold capture_transforms. by rewrite H'. }
  split; [by apply E|]. intros s' root_path' H'.
  rewrite (E _ _ H), (E _ _ H'). split; [reflexivity|by vm_compute].
Qed.

Lemma capture_transforms_invalid_root_witness :
  GetPrimAtPath room ["Missing"] = None ∧
  capture_transforms room ["Missing"] = [] ∧
  verify_positions_unchanged (capture_transforms room ["Missing"])
    (capture_transforms empty_stage ["Environment"])
  = ([" Position verification: All 0 object positions preserved"], true).
Proof.
  destruct (capture_transforms_invalid_root room ["Missing"] eq_refl)
    as [Hempty Hverify].
  split_and!; [reflexivity|exact Hempty|].
  apply (Hverify empty_stage ["Environment"] eq_refl).
Defined.

(** ** C7: verification never blocks setup *)

(** C7.  Whatever snapshot was taken before the pass and whatever the stage
    holds after it, so whatever the verifier reports, steps 7 to 9 of
    [setup_infinigen_scene] return normally: after the verifier's lines
    they print "Environment setup complete." and invoke the scale fixup.
    [setup_infinigen_scene] always gets to these steps, and there are runs
    of them in which the verifier reports a moved prim. *)
Theorem verification_never_blocks_setup (env : Env) :
  (∀ initial_transforms w,
     setup_verify_and_finish env initial_transforms w
     = (Return tt,
        mkWorld (resolve_scale_issues env (stage w)) (defaultPrim w)
          (trace w ++
           [Printed "Verifying object positions..."] ++
           (Printed <$> (verify_positions_unchanged initial_transforms
                         (capture_transforms (stage w) ["Environment"])).1) ++
           setup_epilogue))) ∧
  (∀ usd_file_path coarse hide w,
     ∃ initial_transforms w1 evs,
       setup_infinigen_scene env usd_file_path coarse hide w
       = setup_verify_and_finish env initial_transforms w1 ∧
       trace w1 = trace w ++ evs) ∧
  (verify_positions_unchanged ball_after
     (capture_transforms room ["Environment"])).2 = false.
Proof.
  split_and!.
  - intros initial_transforms [s dp tr]. unfold setup_verify_and_finish.
    run_script_steps. rewrite !app_assoc_events. reflexivity.
  - intros usd_file_path coarse hide [s dp tr]. unfold setup_infinigen_scene.
    run_script_steps.
    destruct (load_env env usd_file_path (new_stage env)) as [s'|[e s']];
      destruct (GetPrimAtPath s' ["Environment"]) as [h|];
      eexists _, (mkWorld _ _ _), _; (split; [reflexivity|]);
      run_script_steps; rewrite !app_assoc_events; reflexivity.
  - by vm_compute.
Qed.

(** ** C8: a failed import *)

(** C8.  When [load_env] raises, [setup_infinigen_scene] prints "Loading
    failed" with the error and carries on with the stage the import left:
    default prim, update, snapshot, the pass, verification, the scale fixup.
    It returns normally; [load_env] is called once and the stage is not
    reset.  The script then runs the viewer loop and ends with status 0. *)
Theorem load_failure_is_logged_and_setup_continues
    (env : Env) (args : Args) (w : World) (e : string) (s_left : Stage) :
  load_env env (usd_path args) (new_stage env) = inr (e, s_left) →
  setup_infinigen_scene env (usd_path args) (coarse_approximation args)
    (hide_walls args) w
  = (Return tt,
     mkWorld
       (resolve_scale_issues env
          (modify_environment (Some ["Environment"])
             (coarse_approximation args) (hide_walls args)
             (app_update env s_left)))
       (GetPrimAtPath s_left ["Environment"])
       (trace w ++
        [Printed "=== Starting Infinigen Environment Setup ===";
         Printed ("File: " +:+ usd_path args);
         Printed ("Coarse approximation: " +:+ coarse_approximation args);
         Printed ("Hide walls: " +:+ py_bool (hide_walls args));
         Printed "Creating new stage...";
         NewStage;
         Printed ("Loading environment: " +:+ usd_path args);
         LoadEnv (usd_path args) ["Environment"] true;
         Printed (RED +:+ "Loading failed: " +:+ e +:+ RESET);
         Printed "Setting /Environment as default prim...";
         Printed (default_prim_line s_left ["Environment"]);
         AppUpdate;
         Printed "Capturing initial object positions...";
         Printed ("Captured " +:+
                pretty (length (capture_transforms (app_update env s_left)
                                  ["Environment"])) +:+
                " object transforms");
         Printed "Setting up environment..."] ++
        (Printed <$> modify_environment_prints (Some ["Environment"])
                     (hide_walls args) (app_update env s_left)) ++
        [Printed "Verifying object positions..."] ++
        (Printed <$> (verify_positions_unchanged
                      (capture_transforms (app_update env s_left)
                         ["Environment"])
                      (capture_transforms
                         (modify_environment (Some ["Environment"])
                            (coarse_approximation args) (hide_walls args)
                            (app_update env s_left))
                         ["Environment"])).1) ++
        setup_epilogue)) ∧
  (path_exists env (usd_path args) = true →
   ∃ evs, run_script env args
          = (0%nat, evs ++ [Printed "=== EXIT PROGRAM ==="; AppClose])).
Proof.
  intros Hload. split; [by apply setup_after_failed_load|].
  intros Hexists. unfold run_script, script, main.
  run_script_steps. rewrite Hexists. cbn [negb].
  rewrite (setup_after_failed_load _ _ _ _ _ _ _ Hload).
  run_script_steps.
  match goal with
  | |- context [viewer_loop env ?t ?fs ?w0] =>
      destruct (viewer_loop_returns env fs t w0) as (s' & evs & Hloop)
  end.
  rewrite Hloop. run_script_steps.
  rewrite app_assoc_events. eexists. reflexivity.
Qed.

Lemma load_failure_is_logged_and_setup_continues_witness :
  load_env (example_env true false) (usd_path example_args)
    (new_stage (example_env true false))
  = inr ("Failed to open layer", empty_stage) ∧
  (setup_infinigen_scene (example_env true false) (usd_path example_args)
     (coarse_approximation example_args) (hide_walls example_args)
     (mkWorld empty_stage None [])).1 = Return tt ∧
  (run_script (example_env true false) example_args).1 = 0%nat.
Proof.
  destruct (load_failure_is_logged_and_setup_continues
              (example_env true false) example_args
              (mkWorld empty_stage None []) "Failed to open layer"
              empty_stage eq_refl) as [Hsetup Hrun].
  split_and!; [reflexivity|by rewrite Hsetup|].
  destruct (Hrun eq_refl) as [evs ->]. reflexivity.
Defined.

(** ** C6: a missing file *)

(** C6 as stated fails.  The simulation application is started when the
    module is loaded, right after the arguments are parsed and before the
    main program checks the path: a run on a missing file has started it. *)
Lemma missing_file_claim_fails :
  ¬ (∀ (env : Env) (args : Args),
       path_exists env (usd_path args) = false →
       (run_script env args).1 = 1%nat ∧
       (∀ u p r, LoadEnv u p r ∉ (run_script env args).2) ∧
       SimulationAppStart ∉ (run_script env args).2).
Proof.
  intros H.
  destruct (H (example_env false true) example_args eq_refl) as (_ & _ & Hno).
  apply Hno. vm_compute. repeat constructor.
Qed.

(** C6, amended.  When the scene file does not exist, the script prints
    that the file was not found and exits with status 1.  It has started
    the simulation application by then, and nothing else: no stage is
    created and no import is attempted. *)
Theorem missing_file_exits_before_import (env : Env) (args : Args) :
  path_exists env (usd_path args) = false →
  run_script env args
  = (1%nat,
     [SimulationAppStart;
      Printed ("Using file path: " +:+ usd_path args);
      Printed ("File not found: " +:+ usd_path args);
      Printed "Please check the path and try again."]).
Proof.
  intros Hexists. unfold run_script, script, main.
  run_script_steps. rewrite Hexists. reflexivity.
Qed.

Lemma missing_file_exits_before_import_witness :
  path_exists (example_env false true) (usd_path example_args) = false ∧
  run_script (example_env false true) example_args
  = (1%nat,
     [SimulationAppStart;
      Printed "Using file path: scene.usdc";
      Printed "File not found: scene.usdc";
      Printed "Please check the path and try again."]).
Proof.
  split; [reflexivity|].
  apply (missing_file_exits_before_import (example_env false true)
           example_args eq_refl).
Defined.

(** * Further properties of the script *)

(** ** transforms_are_equal *)

Lemma Qeq_bool_sym x y : Qeq_bool x y = Qeq_bool y x.
Proof.
  destruct (Qeq_bool x y) eqn:E1, (Qeq_bool y x) eqn:E2; try done.
  - apply Qeq_bool_iff in E1. apply Qeq_bool_neq in E2. by destruct E2.
  - apply Qeq_bool_iff in E2. apply Qeq_bool_neq in E1. by destruct E1.
Qed.

Lemma vec_eqb_sym u : ∀ v, vec_eqb u v = vec_eqb v u.
Proof.
  induction u as [|x u IH]; intros [|y v]; simpl; try done.
  by rewrite Qeq_bool_sym, IH.
Qed.

Lemma Value_eqb_sym a b : Value_eqb a b = Value_eqb b a.
Proof.
  destruct a as [x|x|x], b as [y|y|y]; simpl; try done.
  - by destruct x, y.
  - apply String.eqb_sym.
  - apply vec_eqb_sym.
Qed.

Lemma TransformData_eqb_sym a b : TransformData_eqb a b = TransformData_eqb b a.
Proof.
  unfold TransformData_eqb.
  assert (H : ∀ x y, option_eqb Value_eqb x y = option_eqb Value_eqb y x).
  { intros [x|] [y|]; simpl; try done. apply Value_eqb_sym. }
  by rewrite (H (translate a)), (H (rotation a)), (H (scale a)), (H (orient a)).
Qed.

Lemma Qlt_bool_abs_sym x y tolerance :
  Qlt_bool (Qabs (x - y)) tolerance = Qlt_bool (Qabs (y - x)) tolerance.
Proof. by rewrite (Qabs_Qminus x y). Qed.

(** X1.  [transforms_are_equal] does not depend on the order of its two
    values, whatever they are (None, a number, a record) and whatever the
    tolerance. *)
Theorem transforms_are_equal_sym (a b : PyVal) (tolerance : Q) :
  transforms_are_equal a b tolerance = transforms_are_equal b a tolerance.
Proof.
  destruct a as [|x|r], b as [|y|r']; try reflexivity.
  - apply Qlt_bool_abs_sym.
  - apply TransformData_eqb_sym.
Qed.


(** ** verify_positions_unchanged *)

Lemma verify_step_counts after st item :
  let st' := verify_step after st item in
  total_checked st'
  = (total_checked st + (if in_both after item then 1 else 0))%nat ∧
  (changes_detected st ≤ changes_detected st')%nat ∧
  (changes_detected st' - changes_detected st
   ≤ (if in_both after item then 1 else 0))%nat ∧
  length (printed st')
  = (length (printed st) + (changes_detected st' - changes_detected st))%nat.
Proof.
  destruct item as [k r]. unfold verify_step, in_both. simpl.
  destruct (dict_get k after) as [r'|]; simpl.
  - destruct (transforms_are_equal (PyDict r) (PyDict r') (1 # 1000000));
      simpl; rewrite ?length_app; simpl; lia.
  - lia.
Qed.

Lemma verify_loop_counts after l : ∀ st,
  let st' := foldl (verify_step after) st l in
  total_checked st'
  = (total_checked st + length (List.filter (in_both after) l))%nat ∧
  (changes_detected st ≤ changes_detected st')%nat ∧
  (changes_detected st' - changes_detected st
   ≤ length (List.filter (in_both after) l))%nat ∧
  length (printed st')
  = (length (printed st) + (changes_detected st' - changes_detected st))%nat.
Proof.
  induction l as [|item l IH]; intros st; simpl; [lia|].
  destruct (IH (verify_step after st item)) as (T & C1 & C2 & P).
  destruct (verify_step_counts after st item) as (T0 & C3 & C4 & P0).
  simpl in *. destruct (in_both after item); simpl; lia.
Qed.

(** X3.  The verifier checks exactly the paths of the first snapshot that
    are also in the second; it never counts more changes than paths
    checked, prints one warning line per change, and then one summary
    line. *)
Theorem verify_positions_unchanged_counts (before after : Snapshot) :
  total_checked (verify_loop before after)
  = length (List.filter (in_both after) before) ∧
  (changes_detected (verify_loop before after)
   ≤ total_checked (verify_loop before after))%nat ∧
  (total_checked (verify_loop before after) ≤ length before)%nat ∧
  length (printed (verify_loop before after))
  = changes_detected (verify_loop before after) ∧
  length (verify_positions_unchanged before after).1
  = S (changes_detected (verify_loop before after)).
Proof.
  destruct (verify_loop_counts after before (mkVerifyState [] 0 0))
    as (T & C1 & C2 & P).
  fold (verify_loop before after) in *. simpl in *.
  pose proof (List.filter_length_le (in_both after) before).
  unfold verify_positions_unchanged. simpl. rewrite length_app. simpl.
  lia.
Qed.

Lemma verify_loop_none_common after l : ∀ st,
  Forall (λ item, dict_get item.1 after = None) l →
  foldl (verify_step after) st l = st.
Proof.
  induction l as [|[k r] l IH]; intros st H; [done|].
  apply Forall_cons in H as [Hk Hl]. simpl in *. rewrite Hk. by apply IH.
Qed.

(** X4.  Paths that are missing from the second snapshot are not reported:
    when none of the paths of the first snapshot is in the second, the
    verifier checks nothing and returns true, however many prims the first
    snapshot holds. *)
Theorem verify_positions_unchanged_ignores_missing (before after : Snapshot) :
  Forall (λ item, dict_get item.1 after = None) before →
  verify_positions_unchanged before after
  = ([" Position verification: All 0 object positions preserved"], true).
Proof.
  intros H. unfold verify_positions_unchanged, verify_loop.
  by rewrite verify_loop_none_common.
Qed.

Lemma verify_positions_unchanged_ignores_missing_witness :
  Forall (λ item, dict_get item.1 [] = None) ball_before ∧
  verify_positions_unchanged ball_before []
  = ([" Position verification: All 0 object positions preserved"], true).
Proof.
  assert (H : Forall (λ item : string * TransformData,
                        dict_get item.1 [] = None) ball_before)
    by (by repeat constructor).
  split; [exact H|].
  exact (verify_positions_unchanged_ignores_missing ball_before [] H).
Defined.

(** ** Snapshots as dicts *)

Lemma dict_get_set k k' v d :
  dict_get k (dict_set k' v d)
  = if String.eqb k' k then Some v else dict_get k d.
Proof.
  induction d as [|[k0 v0] d IH]; simpl; [done|].
  destruct (String.eqb_spec k0 k') as [->|Hne]; simpl.
  - by destruct (String.eqb_spec k' k).
  - rewrite IH. destruct (String.eqb_spec k0 k) as [->|?]; [|done].
    by destruct (String.eqb_spec k' k) as [->|?].
Qed.


(** ** capture_transforms *)

Lemma GetAttr_if_HasAttribute s p k :
  (if HasAttribute s p k then GetAttr s p k else None) = GetAttr s p k.
Proof.
  rewrite HasAttribute_GetAttr. case_bool_decide as H; [done|].
  destruct (GetAttr s p k); [|done]. destruct H. by eexists.
Qed.

Lemma capture_step_unfold s d p :
  capture_step s d p
  = if HasAttribute s p "xformOp:translate"
    then dict_set (path_str (GetPath s p))
           (mkTransformData (GetAttr s p "xformOp:translate")
              (GetAttr s p "xformOp:rotateXYZ")
              (GetAttr s p "xformOp:scale")
              (GetAttr s p "xformOp:orient")) d
    else d.
Proof. unfold capture_step. by rewrite !GetAttr_if_HasAttribute. Qed.

Lemma capture_loop_sound s k r l : ∀ d,
  dict_get k (foldl (capture_step s) d l) = Some r →
  dict_get k d = Some r ∨
  ∃ p, p ∈ l ∧ HasAttribute s p "xformOp:translate" = true ∧
       path_str (GetPath s p) = k ∧
       r = mkTransformData (GetAttr s p "xformOp:translate")
             (GetAttr s p "xformOp:rotateXYZ")
             (GetAttr s p "xformOp:scale")
             (GetAttr s p "xformOp:orient").
Proof.
  induction l as [|p l IH]; intros d; simpl; [by left|].
  intros [H|(q & Hq & H)]%IH.
  - rewrite capture_step_unfold in H.
    destruct (HasAttribute s p "xformOp:translate") eqn:E; [|by left].
    rewrite dict_get_set in H.
    destruct (String.eqb_spec (path_str (GetPath s p)) k) as [Hk|?];
      [|by left].
    injection H as <-. right. exists p. split_and!; try done.
    apply list_elem_of_here.
  - right. exists q. split; [by right|done].
Qed.

Lemma capture_loop_complete s k l : ∀ d,
  is_Some (dict_get k d) ∨
  (∃ p, p ∈ l ∧ HasAttribute s p "xformOp:translate" = true ∧
        path_str (GetPath s p) = k) →
  is_Some (dict_get k (foldl (capture_step s) d l)).
Proof.
  induction l as [|p l IH]; intros d; simpl.
  - intros [H|(p & Hp%elem_of_nil & _)]; done.
  - intros H. apply IH. rewrite capture_step_unfold.
    destruct H as [H|(q & [->|Hq]%elem_of_cons & Hattr & Hk)].
    + left. destruct (HasAttribute s p "xformOp:translate"); [|done].
      rewrite dict_get_set. by destruct (String.eqb _ k).
    + left. rewrite Hattr, dict_get_set, Hk, String.eqb_refl. by eexists.
    + right. by exists q.
Qed.

(** X6.  Every record of a snapshot is the record of a prim under the root
    that has a translate attribute: its key is the prim's path, and its
    four fields are the prim's translate, rotateXYZ, scale and orient
    values, None for an attribute the prim does not have. *)
Theorem capture_transforms_sound
    (s : Stage) (root_path : SdfPath) (k : string) (r : TransformData) :
  dict_get k (capture_transforms s root_path) = Some r →
  ∃ p, p ∈ PrimRange s (GetPrimAtPath s root_path) ∧
       HasAttribute s p "xformOp:translate" = true ∧
       path_str (GetPath s p) = k ∧
       translate r = GetAttr s p "xformOp:translate" ∧
       rotation r = GetAttr s p "xformOp:rotateXYZ" ∧
       scale r = GetAttr s p "xformOp:scale" ∧
       orient r = GetAttr s p "xformOp:orient".
Proof.
  unfold capture_transforms.
  destruct (GetPrimAtPath s root_path) as [root|] eqn:E; [|done].
  intros [H|(p & Hp & Hattr & Hk & ->)]%capture_loop_sound; [done|].
  exists p. by split_and!.
Qed.

Lemma capture_transforms_sound_witness :
  dict_get "/Environment/ball" (capture_transforms room ["Environment"])
  = Some (mkTransformData (Some (VVec [2; 2; 0]%Q)) None None None) ∧
  ∃ p, p ∈ PrimRange room (GetPrimAtPath room ["Environment"]) ∧
       path_str (GetPath room p) = "/Environment/ball".
Proof.
  assert (H : dict_get "/Environment/ball"
                (capture_transforms room ["Environment"])
              = Some (mkTransformData (Some (VVec [2; 2; 0]%Q))
                        None None None)) by reflexivity.
  split; [exact H|].
  destruct (capture_transforms_sound room ["Environment"] _ _ H)
    as (p & Hp & _ & Hk & _).
  by exists p.
Defined.

(** X7.  Every prim under the root that has a translate attribute is in
    the snapshot, under its path; prims without one are left out (X6). *)
Theorem capture_transforms_complete
    (s : Stage) (root_path : SdfPath) (p : Handle) :
  p ∈ PrimRange s (GetPrimAtPath s root_path) →
  HasAttribute s p "xformOp:translate" = true →
  is_Some (dict_get (path_str (GetPath s p))
             (capture_transforms s root_path)).
Proof.
  intros Hp Hattr. unfold capture_transforms.
  destruct (GetPrimAtPath s root_path) as [root|] eqn:E;
    [|by apply elem_of_nil in Hp].
  apply capture_loop_complete. right. by exists p.
Qed.

Lemma capture_transforms_complete_witness :
  [0; 1] ∈ PrimRange room (GetPrimAtPath room ["Environment"]) ∧
  HasAttribute room [0; 1] "xformOp:translate" = true ∧
  is_Some (dict_get "/Environment/Chair_03"
             (capture_transforms room ["Environment"])).
Proof.
  assert (H : [0; 1] ∈ PrimRange room (GetPrimAtPath room ["Environment"]))
    by (vm_compute; repeat constructor).
  split_and!; [exact H|reflexivity|].
  exact (capture_transforms_complete room ["Environment"] [0; 1] H eq_refl).
Defined.

(** ** add_colliders *)

Lemma edits_idem T O s : edits T O → T (T s) = T s.
Proof.
  intros He. destruct (proj2 He s) as [Hsk Hp].
  apply stage_ext; [apply (proj2 He)|]. intros p.
  rewrite (proj2 (proj2 He (T s)) p), (edits_skel _ _ _ s p He Hsk), Hp.
  destruct (props_at s p); simpl; [|done]. by rewrite run_idem.
Qed.

Lemma HasAPI_edits_keep T O s p a :
  edits T O → OApply a ∉ O s p → HasAPI (T s) p a = HasAPI s p a.
Proof.
  intros He Hno. pose proof (HasAPI_edits T O s p a He) as H.
  destruct (HasAPI (T s) p a) eqn:E1, (HasAPI s p a) eqn:E2; try done.
  - destruct (proj1 H eq_refl) as [_ [?|?]]; done.
  - assert (Hv : is_Some (props_at s p)).
    { unfold HasAPI in E2. destruct (props_at s p); [by eexists|done]. }
    by pose proof (proj2 H (conj Hv (or_introl eq_refl))).
Qed.

Lemma is_gprim_at_valid s p : is_gprim_at s p = true → is_Some (props_at s p).
Proof.
  unfold is_gprim_at, type_at, props_at.
  destruct (get s p); simpl; [by eexists|done].
Qed.

Lemma collide_ops_not_gprim a ty :
  match ty with Some k => IsA_Gprim k | None => false end = false →
  collide_ops a ty = [].
Proof. destruct ty as [[]|]; simpl; done. Qed.

(** X8.  Running [add_colliders] a second time on the same root with the
    same approximation changes nothing: the schemas are found applied and
    the attributes are set to the values they hold. *)
Theorem add_colliders_idempotent
    (root_prim : Handle) (approximation_type : string) (s : Stage) :
  add_colliders root_prim approximation_type
    (add_colliders root_prim approximation_type s)
  = add_colliders root_prim approximation_type s.
Proof. apply (edits_idem _ _ s (add_colliders_edits _ _)). Qed.

(** X9.  [add_colliders] leaves alone every prim that is outside the
    subtree of its root or is not a geometric primitive: transform groups
    and other prims in the subtree are skipped. *)
Theorem add_colliders_skips_other_prims
    (root_prim : Handle) (approximation_type : string) (s : Stage)
    (p : Handle) :
  ¬ (p ∈ PrimRange s (Some root_prim) ∧ is_gprim_at s p = true) →
  props_at (add_colliders root_prim approximation_type s) p = props_at s p.
Proof.
  intros Hno.
  rewrite (proj2 (proj2 (add_colliders_edits root_prim approximation_type) s) p).
  assert (E : add_colliders_ops root_prim approximation_type s p = []).
  { unfold add_colliders_ops. apply bind_nil_all. intros q Hq.
    unfold only_at. case_decide as Hpq; [subst q|done].
    apply collide_ops_not_gprim. unfold is_gprim_at in Hno.
    destruct (match type_at s p with Some k => IsA_Gprim k | None => false end)
      eqn:E; [|done].
    destruct Hno. by split. }
  rewrite E. by destruct (props_at s p).
Qed.

Lemma add_colliders_skips_other_prims_witness :
  ¬ ([0; 3] ∈ PrimRange room (Some [0]) ∧ is_gprim_at room [0; 3] = true) ∧
  props_at (add_colliders [0] "convexHull" room) [0; 3] = props_at room [0; 3].
Proof.
  assert (H : ¬ ([0; 3] ∈ PrimRange room (Some [0]) ∧
                 is_gprim_at room [0; 3] = true))
    by (intros [_ H]; vm_compute in H; discriminate).
  split; [exact H|].
  exact (add_colliders_skips_other_prims [0] "convexHull" room [0; 3] H).
Defined.

(** X10.  After [add_colliders], every geometric primitive in the subtree
    of the root, mesh or not, carries the collision schema, listed once
    unless the scene listed it more often, and has collision enabled. *)
Theorem add_colliders_enables_collision
    (root_prim : Handle) (approximation_type : string) (s : Stage)
    (p : Handle) :
  p ∈ PrimRange s (Some root_prim) →
  is_gprim_at s p = true →
  HasAPI (add_colliders root_prim approximation_type s) p CollisionAPI = true ∧
  GetAttr (add_colliders root_prim approximation_type s) p
    "physics:collisionEnabled" = Some (VBool true) ∧
  (schema_count (add_colliders root_prim approximation_type s) p CollisionAPI
   ≤ Nat.max 1 (schema_count s p CollisionAPI))%nat.
Proof.
  intros Hin Hg.
  pose proof (add_colliders_edits root_prim approximation_type) as He.
  destruct (is_gprim_at_valid _ _ Hg) as [pr Hpr].
  unfold is_gprim_at in Hg. destruct (type_at s p) as [ty|] eqn:Ety; [|done].
  split_and!.
  - apply (HasAPI_edits _ _ _ _ _ He). split; [by eexists|]. right.
    apply elem_of_add_colliders_ops. split; [done|].
    rewrite Ety. unfold collide_ops. rewrite Hg. apply elem_of_app. left.
    apply list_elem_of_here.
  - rewrite (GetAttr_edits _ _ _ _ _ He), Hpr, last_set_add_colliders_ops.
    rewrite decide_True by done. rewrite Ety. unfold collide_ops. rewrite Hg.
    rewrite last_set_app.
    destruct (IsA_Mesh ty), (String.eqb approximation_type "triangleMesh");
      reflexivity.
  - unfold schema_count. rewrite (proj2 (proj2 He s) p), Hpr. simpl.
    apply count_apiSchemas_run.
Qed.

Lemma add_colliders_enables_collision_witness :
  [0; 6] ∈ PrimRange room (Some [0]) ∧
  is_gprim_at room [0; 6] = true ∧
  HasAPI (add_colliders [0] "convexHull" room) [0; 6] CollisionAPI = true ∧
  GetAttr (add_colliders [0] "convexHull" room) [0; 6]
    "physics:collisionEnabled" = Some (VBool true).
Proof.
  assert (H : [0; 6] ∈ PrimRange room (Some [0]))
    by (vm_compute; repeat constructor).
  destruct (add_colliders_enables_collision [0] "convexHull" room [0; 6]
              H eq_refl) as (H1 & H2 & _).
  split_and!; [exact H|reflexivity|exact H1|exact H2].
Defined.

Lemma OApply_collide_ops a b ty :
  OApply b ∈ collide_ops a (Some ty) →
  b = CollisionAPI ∨
  (b = PhysxTriangleMeshCollisionAPI ∧ a = "triangleMesh") ∨
  (b = MeshCollisionAPI ∧ a ≠ "triangleMesh").
Proof.
  rewrite list_elem_of_In. unfold collide_ops.
  destruct (String.eqb_spec a "triangleMesh");
    destruct ty; simpl; intuition (try discriminate);
    match goal with H : OApply _ = OApply _ |- _ => injection H as <- end;
    auto.
Qed.

Lemma add_colliders_mesh_effect
    (root_prim : Handle) (approximation_type : string) (s : Stage)
    (p : Handle) :
  p ∈ PrimRange s (Some root_prim) →
  is_mesh_at s p = true →
  if String.eqb approximation_type "triangleMesh" then
    HasAPI (add_colliders root_prim approximation_type s) p
      PhysxTriangleMeshCollisionAPI = true ∧
    HasAPI (add_colliders root_prim approximation_type s) p MeshCollisionAPI
    = HasAPI s p MeshCollisionAPI ∧
    GetAttr (add_colliders root_prim approximation_type s) p
      "physics:approximation" = GetAttr s p "physics:approximation"
  else
    HasAPI (add_colliders root_prim approximation_type s) p MeshCollisionAPI
    = true ∧
    HasAPI (add_colliders root_prim approximation_type s) p
      PhysxTriangleMeshCollisionAPI
    = HasAPI s p PhysxTriangleMeshCollisionAPI ∧
    GetAttr (add_colliders root_prim approximation_type s) p
      "physics:approximation" = Some (VToken approximation_type).
Proof.
  intros Hin Hmesh.
  pose proof (add_colliders_edits root_prim approximation_type) as He.
  destruct (is_mesh_at_valid _ _ Hmesh) as [pr Hpr].
  pose proof (is_mesh_at_type _ _ Hmesh) as Ety.
  assert (Hkeep : ∀ b,
            ¬ OApply b ∈ collide_ops approximation_type (Some Mesh) →
            HasAPI (add_colliders root_prim approximation_type s) p b
            = HasAPI s p b).
  { intros b Hb. apply (HasAPI_edits_keep _ _ _ _ _ He).
    intros [_ H]%elem_of_add_colliders_ops. by rewrite Ety in H. }
  assert (Hadd : ∀ b,
            OApply b ∈ collide_ops approximation_type (Some Mesh) →
            HasAPI (add_colliders root_prim approximation_type s) p b = true).
  { intros b Hb. apply (HasAPI_edits _ _ _ _ _ He).
    split; [by eexists|]. right.
    apply elem_of_add_colliders_ops. by rewrite Ety. }
  assert (Hattr : GetAttr (add_colliders root_prim approximation_type s) p
                    "physics:approximation"
                  = match last_set "physics:approximation"
                            (collide_ops approximation_type (Some Mesh)) with
                    | Some v => Some v
                    | None => GetAttr s p "physics:approximation"
                    end).
  { rewrite (GetAttr_edits _ _ _ _ _ He), Hpr, last_set_add_colliders_ops.
    rewrite decide_True by done. rewrite Ety. unfold GetAttr. by rewrite Hpr. }
  destruct (String.eqb_spec approximation_type "triangleMesh") as [->|Hne].
  - split_and!.
    + apply Hadd. simpl. rewrite !elem_of_cons. auto.
    + apply Hkeep. intros [[=]|[[[=] _]|[_ H]]]%OApply_collide_ops. done.
    + by rewrite Hattr.
  - split_and!.
    + apply Hadd. rewrite collide_ops_mesh_coarse by done.
      rewrite !elem_of_cons. auto.
    + apply Hkeep. intros [[=]|[[_ H]|[[=] _]]]%OApply_collide_ops. done.
    + by rewrite Hattr, collide_ops_mesh_coarse.
Qed.

(** X11.  What [add_colliders] does to a mesh in the subtree of its root.
    With "triangleMesh" it applies the PhysX triangle-mesh schema and
    leaves the mesh-collision schema and the approximation value as they
    were; with any other approximation it applies the mesh-collision
    schema, sets the approximation to it, and leaves the triangle-mesh
    schema as it was. *)
Theorem add_colliders_mesh
    (root_prim : Handle) (approximation_type : string) (s : Stage)
    (p : Handle) :
  p ∈ PrimRange s (Some root_prim) →
  is_mesh_at s p = true →
  if String.eqb approximation_type "triangleMesh" then
    HasAPI (add_colliders root_prim approximation_type s) p
      PhysxTriangleMeshCollisionAPI = true ∧
    HasAPI (add_colliders root_prim approximation_type s) p MeshCollisionAPI
    = HasAPI s p MeshCollisionAPI ∧
    GetAttr (add_colliders root_prim approximation_type s) p
      "physics:approximation" = GetAttr s p "physics:approximation"
  else
    HasAPI (add_colliders root_prim approximation_type s) p MeshCollisionAPI
    = true ∧
    HasAPI (add_colliders root_prim approximation_type s) p
      PhysxTriangleMeshCollisionAPI
    = HasAPI s p PhysxTriangleMeshCollisionAPI ∧
    GetAttr (add_colliders root_prim approximation_type s) p
      "physics:approximation" = Some (VToken approximation_type).
Proof. apply add_colliders_mesh_effect. Qed.

Lemma add_colliders_mesh_witness :
  [0; 1] ∈ PrimRange room (Some [0]) ∧
  is_mesh_at room [0; 1] = true ∧
  HasAPI (add_colliders [0] "boundingCube" room) [0; 1] MeshCollisionAPI
  = true ∧
  GetAttr (add_colliders [0] "boundingCube" room) [0; 1]
    "physics:approximation" = Some (VToken "boundingCube").
Proof.
  assert (H : [0; 1] ∈ PrimRange room (Some [0]))
    by (vm_compute; repeat constructor).
  pose proof (add_colliders_mesh [0] "boundingCube" room [0; 1] H eq_refl)
    as Hm.
  change (String.eqb "boundingCube" "triangleMesh") with false in Hm.
  destruct Hm as (H1 & _ & H3).
  split_and!; [exact H|reflexivity|exact H1|exact H3].
Defined.

Lemma add_colliders_keeps_range r a s root :
  PrimRange (add_colliders r a s) root = PrimRange s root.
Proof.
  rewrite <- PrimRange_skel, (proj1 (proj2 (add_colliders_edits r a) s)).
  apply PrimRange_skel.
Qed.

Lemma add_colliders_keeps_mesh r a s p :
  is_mesh_at (add_colliders r a s) p = is_mesh_at s p.
Proof.
  rewrite <- (is_mesh_at_skel_only p (add_colliders r a s)).
  rewrite (proj1 (proj2 (add_colliders_edits r a) s)).
  apply is_mesh_at_skel_only.
Qed.

(** X12.  Colliders applied one after the other to the same subtree.  A
    later coarse approximation overwrites an earlier one.  A later
    "triangleMesh" does not: the mesh then carries both schemas and still
    holds the earlier approximation value. *)
Theorem add_colliders_twice
    (root_prim : Handle) (a b : string) (s : Stage) (p : Handle) :
  p ∈ PrimRange s (Some root_prim) →
  is_mesh_at s p = true →
  a ≠ "triangleMesh" →
  (b ≠ "triangleMesh" →
   GetAttr (add_colliders root_prim b (add_colliders root_prim a s)) p
     "physics:approximation" = Some (VToken b)) ∧
  GetAttr (add_colliders root_prim "triangleMesh"
             (add_colliders root_prim a s)) p "physics:approximation"
  = Some (VToken a) ∧
  HasAPI (add_colliders root_prim "triangleMesh"
            (add_colliders root_prim a s)) p MeshCollisionAPI = true ∧
  HasAPI (add_colliders root_prim "triangleMesh"
            (add_colliders root_prim a s)) p PhysxTriangleMeshCollisionAPI
  = true.
Proof.
  intros Hin Hmesh Ha.
  assert (Hin' : p ∈ PrimRange (add_colliders root_prim a s) (Some root_prim))
    by (by rewrite add_colliders_keeps_range).
  assert (Hmesh' : is_mesh_at (add_colliders root_prim a s) p = true)
    by (by rewrite add_colliders_keeps_mesh).
  pose proof (add_colliders_mesh_effect root_prim a s p Hin Hmesh) as H1.
  destruct (String.eqb_spec a "triangleMesh") as [?|_]; [done|].
  destruct H1 as (Hm & _ & Happrox).
  split_and!.
  - intros Hb.
    pose proof (add_colliders_mesh_effect root_prim b _ p Hin' Hmesh') as H2.
    destruct (String.eqb_spec b "triangleMesh") as [?|_]; [done|].
    apply H2.
  - pose proof (add_colliders_mesh_effect root_prim "triangleMesh" _ p
                  Hin' Hmesh') as H2.
    simpl in H2. destruct H2 as (_ & _ & ->). exact Happrox.
  - pose proof (add_colliders_mesh_effect root_prim "triangleMesh" _ p
                  Hin' Hmesh') as H2.
    simpl in H2. destruct H2 as (_ & -> & _). exact Hm.
  - pose proof (add_colliders_mesh_effect root_prim "triangleMesh" _ p
                  Hin' Hmesh') as H2.
    simpl in H2. apply H2.
Qed.

Lemma add_colliders_twice_witness :
  [0; 1] ∈ PrimRange room (Some [0]) ∧
  is_mesh_at room [0; 1] = true ∧
  "convexHull" ≠ "triangleMesh" ∧
  GetAttr (add_colliders [0] "triangleMesh"
             (add_colliders [0] "convexHull" room)) [0; 1]
    "physics:approximation" = Some (VToken "convexHull") ∧
  HasAPI (add_colliders [0] "triangleMesh"
            (add_colliders [0] "convexHull" room)) [0; 1]
    PhysxTriangleMeshCollisionAPI = true.
Proof.
  assert (H : [0; 1] ∈ PrimRange room (Some [0]))
    by (vm_compute; repeat constructor).
  assert (Hne : "convexHull" ≠ "triangleMesh") by discriminate.
  destruct (add_colliders_twice [0] "convexHull" "boundingCube" room [0; 1]
              H eq_refl Hne) as (_ & H2 & _ & H4).
  split_and!; [exact H|reflexivity|exact Hne|exact H2|exact H4].
Defined.

(** ** Prim ranges *)

Lemma children_range_complete range cs : ∀ j i c x,
  cs !! i = Some c → x ∈ range c →
  (j + i)%nat :: x ∈ children_range range j cs.
Proof.
  induction cs as [|c0 cs IH]; intros j i c x Hc Hx; [done|].
  simpl. apply elem_of_app. destruct i as [|i]; simpl in Hc.
  - injection Hc as ->. left. rewrite Nat.add_0_r.
    by apply list_elem_of_fmap_2.
  - right. replace (j + S i)%nat with (S j + i)%nat by lia. by eapply IH.
Qed.

Lemma subtree_range_complete t : ∀ x, is_Some (get t x) → x ∈ subtree_range t.
Proof.
  induction t as [n k pr cs IH] using Prim_tree_ind. intros [|i x]; simpl.
  - intros _. apply list_elem_of_here.
  - destruct (cs !! i) as [c|] eqn:Ec; [|by intros [? [=]]].
    intros Hx. right. rewrite Forall_lookup in IH.
    apply (children_range_complete subtree_range cs 0 i c x Ec).
    by apply (IH i c Ec).
Qed.

(** The range of a prim holds the valid prims at or below it. *)
Lemma elem_of_PrimRange s r p :
  p ∈ PrimRange s (Some r) ↔ r `prefix_of` p ∧ is_Some (get s p).
Proof.
  split.
  - intros H. split; [by apply (PrimRange_prefix s)|].
    by apply (PrimRange_valid s (Some r)).
  - intros [[x ->] Hv]. rewrite get_app in Hv. simpl.
    destruct (get s r) as [t|]; simpl in *; [|by destruct Hv].
    apply list_elem_of_fmap_2. by apply subtree_range_complete.
Qed.

Lemma PrimRange_trans s root q p :
  q ∈ PrimRange s root → p ∈ PrimRange s (Some q) → p ∈ PrimRange s root.
Proof.
  destruct root as [r|]; [|by intros ?%elem_of_nil].
  rewrite !elem_of_PrimRange. intros [Hrq _] [Hqp Hv].
  split; [by etrans|done].
Qed.

(** ** modify_environment *)

Lemma modify_step_ops_unreached c q s p :
  is_Some (get s q) →
  p ∉ PrimRange s (Some q) →
  modify_step_ops c q s p = [].
Proof.
  intros Hq Hnot.
  assert (Hne : p ≠ q) by (intros ->; by apply Hnot, PrimRange_self).
  unfold modify_step_ops. destruct (is_mesh_at s q); [|done].
  assert (Hadd : ∀ a, add_colliders_ops q a s p = []).
  { intros a. unfold add_colliders_ops. apply bind_nil_all. intros x Hx.
    unfold only_at. case_decide; [by subst x|done]. }
  rewrite Hadd. simpl. destruct (name_has rigid_body_types s q); [|done].
  unfold only_at. by case_decide.
Qed.

Lemma modify_loop_ops_unreached root_path c s p :
  (∀ q, q ∈ PrimRange s (root_prim_of s root_path) →
        is_mesh_at s q = true → p ∉ PrimRange s (Some q)) →
  modify_loop_ops root_path c s p = [].
Proof.
  intros H. unfold modify_loop_ops. apply bind_nil_all. intros q Hq.
  destruct (is_mesh_at s q) eqn:Em.
  - apply modify_step_ops_unreached; [by eapply PrimRange_valid|by apply H].
  - unfold modify_step_ops. by rewrite Em.
Qed.

Lemma hide_ops_outside m root_path ty s p :
  p ∉ PrimRange s (root_prim_of s root_path) →
  hide_ops m root_path ty s p = [].
Proof.
  intros Hp. unfold hide_ops. apply bind_nil_all. intros q Hq.
  apply elem_of_find_matching_prims in Hq as [Hq _].
  unfold only_at. case_decide; [by subst q|done].
Qed.

Lemma modify_environment_outside
    (root_path : option SdfPath) (coarse : string) (hide : bool)
    (s : Stage) (p : Handle) :
  p ∉ PrimRange s (root_prim_of s root_path) →
  props_at (modify_environment root_path coarse hide s) p = props_at s p.
Proof.
  intros Hp.
  rewrite (proj2 (proj2 (modify_environment_edits root_path coarse hide) s) p).
  assert (E : modify_ops root_path coarse hide s p = []).
  { unfold modify_ops. rewrite !hide_ops_outside by done.
    rewrite modify_loop_ops_unreached.
    - by destruct hide.
    - intros q Hq _ Hpq. apply Hp. by eapply PrimRange_trans. }
  rewrite E. by destruct (props_at s p).
Qed.

(** X13.  With a root path that designates no prim, the pass changes
    nothing at all. *)
Theorem modify_environment_invalid_root
    (path : SdfPath) (coarse : string) (hide : bool) (s : Stage) :
  GetPrimAtPath s path = None →
  modify_environment (Some path) coarse hide s = s.
Proof.
  intros H. apply stage_ext; [apply modify_environment_skel|].
  intros p. apply modify_environment_outside. simpl. rewrite H.
  apply not_elem_of_nil.
Qed.

Lemma modify_environment_invalid_root_witness :
  GetPrimAtPath room ["Missing"] = None ∧
  modify_environment (Some ["Missing"]) "convexHull" true room = room.
Proof.
  split; [reflexivity|].
  exact (modify_environment_invalid_root ["Missing"] "convexHull" true room
           eq_refl).
Defined.

(** X14.  The pass does not touch a prim outside the subtree of its root:
    schemas and attributes, visibility included, are as before. *)
Theorem modify_environment_outside_root
    (root_path : option SdfPath) (coarse : string) (hide : bool)
    (s : Stage) (p : Handle) :
  p ∉ PrimRange s (root_prim_of s root_path) →
  props_at (modify_environment root_path coarse hide s) p = props_at s p.
Proof. apply modify_environment_outside. Qed.

Lemma modify_environment_outside_root_witness :
  ([0; 1] ∉ PrimRange room
              (root_prim_of room (Some ["Environment"; "north_wall"]))) ∧
  props_at (modify_environment (Some ["Environment"; "north_wall"])
              "convexHull" true room) [0; 1]
  = props_at room [0; 1].
Proof.
  assert (H : [0; 1] ∉ PrimRange room
                (root_prim_of room (Some ["Environment"; "north_wall"])))
    by (apply (bool_decide_unpack _); vm_compute; exact I).
  split; [exact H|].
  exact (modify_environment_outside_root _ "convexHull" true room [0; 1] H).
Defined.

(** X15.  The pass gives colliders only within the subtrees of the meshes
    it visits.  A prim that is neither a visited mesh nor below one keeps
    its schemas, and every attribute but its visibility: a sphere or cube
    directly under a transform group gets no collider. *)
Theorem modify_environment_only_below_meshes
    (root_path : option SdfPath) (coarse : string) (hide : bool)
    (s : Stage) (p : Handle) :
  (∀ q, q ∈ PrimRange s (root_prim_of s root_path) →
        is_mesh_at s q = true → p ∉ PrimRange s (Some q)) →
  schemas_at (modify_environment root_path coarse hide s) p = schemas_at s p ∧
  ∀ k, k = "visibility" ∨
       GetAttr (modify_environment root_path coarse hide s) p k
       = GetAttr s p k.
Proof.
  intros H.
  pose proof (modify_environment_edits root_path coarse hide) as He.
  pose proof (modify_loop_ops_unreached root_path coarse s p H) as Eloop.
  assert (Hops : ∀ o, o ∈ modify_ops root_path coarse hide s p →
                      o = OSet "visibility" (VToken "invisible")).
  { intros o. unfold modify_ops. rewrite Eloop, app_nil_r, !elem_of_app.
    intros [Ho|[Ho|Ho]]; try by eapply elem_of_hide_ops.
    destruct hide; [by eapply elem_of_hide_ops|by apply elem_of_nil in Ho]. }
  split.
  - unfold schemas_at. rewrite (proj2 (proj2 He s) p).
    destruct (props_at s p) as [pr|]; simpl; [|done]. f_equal.
    apply apiSchemas_run_absorbed. by intros a ?%Hops.
  - intros k. destruct (decide (k = "visibility")) as [|Hk]; [by left|right].
    rewrite (GetAttr_edits _ _ _ _ _ He). unfold GetAttr.
    destruct (props_at s p) as [pr|]; simpl; [|done].
    rewrite last_set_None; [done|]. intros v [= -> _]%Hops. done.
Qed.

Lemma modify_environment_only_below_meshes_witness :
  (∀ q, q ∈ PrimRange room (root_prim_of room Environment) →
        is_mesh_at room q = true → [0; 6] ∉ PrimRange room (Some q)) ∧
  is_gprim_at room [0; 6] = true ∧
  schemas_at (modify_environment Environment "convexHull" true room) [0; 6]
  = Some [].
Proof.
  assert (H : ∀ q, q ∈ PrimRange room (root_prim_of room Environment) →
                is_mesh_at room q = true → [0; 6] ∉ PrimRange room (Some q)).
  { intros q Hq Hm. apply list_elem_of_In in Hq. vm_compute in Hq.
    repeat (destruct Hq as [<-|Hq];
            [first [discriminate Hm
                   |apply (bool_decide_unpack _); vm_compute; exact I]|]).
    destruct Hq. }
  split_and!; [exact H|reflexivity|].
  destruct (modify_environment_only_below_meshes Environment "convexHull"
              true room [0; 6] H) as [-> _].
  reflexivity.
Defined.

Lemma OSet_modify_ops k v root_path c hide s p :
  OSet k v ∈ modify_ops root_path c hide s p →
  (k = "visibility" ∧ v = VToken "invisible") ∨
  (k = "physics:collisionEnabled" ∧ v = VBool true) ∨
  (k = "physics:approximation").
Proof.
  unfold modify_ops. rewrite !elem_of_app.
  assert (Hh : ∀ m ty, OSet k v ∈ hide_ops m root_path ty s p →
            k = "visibility" ∧ v = VToken "invisible")
    by (by intros m ty [= -> ->]%elem_of_hide_ops).
  intros [H|[H|[H|H]]]; try (left; by eapply Hh).
  - destruct hide; [left; by eapply Hh|by apply elem_of_nil in H].
  - right. unfold modify_loop_ops in H.
    apply list_elem_of_bind in H as (q & H & _). unfold modify_step_ops in H.
    destruct (is_mesh_at s q); [|by apply elem_of_nil in H].
    apply elem_of_app in H as [H|H].
    + apply elem_of_add_colliders_ops in H as [_ H].
      apply OSet_collide_ops in H as [?|[? _]]; auto.
    + destruct (name_has rigid_body_types s q); [|by apply elem_of_nil in H].
      unfold only_at in H. case_decide; [|by apply elem_of_nil in H].
      by apply list_elem_of_singleton in H.
Qed.

(** X16.  After the pass, every geometric primitive at or below a visited
    mesh, the mesh itself included, carries the collision schema and has
    collision enabled. *)
Theorem modify_environment_enables_collision
    (root_path : option SdfPath) (coarse : string) (hide : bool)
    (s : Stage) (q p : Handle) :
  q ∈ PrimRange s (root_prim_of s root_path) →
  is_mesh_at s q = true →
  p ∈ PrimRange s (Some q) →
  is_gprim_at s p = true →
  HasAPI (modify_environment root_path coarse hide s) p CollisionAPI = true ∧
  GetAttr (modify_environment root_path coarse hide s) p
    "physics:collisionEnabled" = Some (VBool true).
Proof.
  intros Hq Hm Hp Hg.
  pose proof (modify_environment_edits root_path coarse hide) as He.
  destruct (is_gprim_at_valid _ _ Hg) as [pr Hpr].
  unfold is_gprim_at in Hg. destruct (type_at s p) as [ty|] eqn:Ety; [|done].
  assert (Hops : ∀ o, o ∈ collide_ops (collider_approx_at coarse s q) (Some ty)
                      → o ∈ modify_ops root_path coarse hide s p).
  { intros o Ho. unfold modify_ops. rewrite !elem_of_app. do 3 right.
    unfold modify_loop_ops. apply list_elem_of_bind. exists q. split; [|done].
    unfold modify_step_ops. rewrite Hm. apply elem_of_app. left.
    apply elem_of_add_colliders_ops. by rewrite Ety. }
  split.
  - apply (HasAPI_edits _ _ _ _ _ He). split; [by eexists|]. right.
    apply Hops. unfold collide_ops. rewrite Hg. apply elem_of_app. left.
    apply list_elem_of_here.
  - rewrite (GetAttr_edits _ _ _ _ _ He), Hpr.
    rewrite (last_set_const _ (VBool true)); [done| |].
    + intros v [[[=] _]|[[_ ->]|[=]]]%OSet_modify_ops. done.
    + apply Hops. unfold collide_ops. rewrite Hg. apply elem_of_app. left.
      rewrite !elem_of_cons. auto.
Qed.

Lemma modify_environment_enables_collision_witness :
  [0; 0] ∈ PrimRange room (root_prim_of room Environment) ∧
  is_mesh_at room [0; 0] = true ∧
  [0; 0; 0] ∈ PrimRange room (Some [0; 0]) ∧
  is_gprim_at room [0; 0; 0] = true ∧
  HasAPI (modify_environment Environment "none" false room) [0; 0; 0]
    CollisionAPI = true.
Proof.
  assert (H1 : [0; 0] ∈ PrimRange room (root_prim_of room Environment))
    by (vm_compute; repeat constructor).
  assert (H2 : [0; 0; 0] ∈ PrimRange room (Some [0; 0]))
    by (vm_compute; repeat constructor).
  destruct (modify_environment_enables_collision Environment "none" false
              room [0; 0] [0; 0; 0] H1 eq_refl H2 eq_refl) as [H _].
  split_and!; [exact H1|reflexivity|exact H2|reflexivity|exact H].
Defined.

(** X17.  The pass asks for rigid-body dynamics only on the meshes it
    visits whose name contains a rigid-body marker ("Table", "Chair",
    "Rug").  On every other prim, a transform group named after a table
    for one, the rigid-body schema is applied after the pass exactly if it
    was before. *)
Theorem modify_environment_rigid_only_marked_meshes
    (root_path : option SdfPath) (coarse : string) (hide : bool)
    (s : Stage) (p : Handle) :
  ¬ (p ∈ PrimRange s (root_prim_of s root_path) ∧
     is_mesh_at s p = true ∧
     name_has rigid_body_types s p = true) →
  HasAPI (modify_environment root_path coarse hide s) p RigidBodyAPI
  = HasAPI s p RigidBodyAPI.
Proof.
  intros Hno.
  apply (HasAPI_edits_keep _ _ _ _ _ (modify_environment_edits _ _ _)).
  rewrite elem_of_modify_ops_OApply. unfold modify_loop_ops.
  intros (q & H & Hq)%list_elem_of_bind. unfold modify_step_ops in H.
  destruct (is_mesh_at s q) eqn:Em; [|by apply elem_of_nil in H].
  apply elem_of_app in H as [H|H].
  - apply elem_of_add_colliders_ops in H as [_ H].
    destruct (type_at s p) as [ty|]; [|by apply elem_of_nil in H].
    by apply OApply_collide_ops in H as [[=]|[[[=] _]|[[=] _]]].
  - destruct (name_has rigid_body_types s q) eqn:En;
      [|by apply elem_of_nil in H].
    unfold only_at in H. case_decide; [subst q|by apply elem_of_nil in H].
    by apply Hno.
Qed.

Lemma modify_environment_rigid_only_marked_meshes_witness :
  ¬ ([0; 0] ∈ PrimRange room (root_prim_of room Environment) ∧
     is_mesh_at room [0; 0] = true ∧
     name_has rigid_body_types room [0; 0] = true) ∧
  HasAPI (modify_environment Environment "convexHull" true room) [0; 0]
    RigidBodyAPI = false.
Proof.
  assert (H : ¬ ([0; 0] ∈ PrimRange room (root_prim_of room Environment) ∧
                 is_mesh_at room [0; 0] = true ∧
                 name_has rigid_body_types room [0; 0] = true))
    by (intros (_ & _ & H); vm_compute in H; discriminate).
  split; [exact H|].
  rewrite (modify_environment_rigid_only_marked_meshes Environment
             "convexHull" true room [0; 0] H).
  reflexivity.
Defined.

(** ** The viewer loop *)

Lemma viewer_loop_events env times : ∀ last_print_time w,
  ∃ evs,
    viewer_loop env last_print_time times w
    = (Return tt,
       mkWorld (Nat.iter (length times) (app_update env) (stage w))
         (defaultPrim w) (trace w ++ evs)) ∧
    length (List.filter is_AppUpdate evs) = length times ∧
    (forallb (λ t, negb (Qle_bool print_interval (t - last_print_time))) times
     = true →
     evs = replicate (length times) AppUpdate).
Proof.
  induction times as [|t times IH]; intros last [s dp tr].
  - exists []. simpl. by rewrite app_nil_r.
  - simpl viewer_loop. run_script_steps.
    destruct (Qle_bool print_interval (t - last)) eqn:Eq.
    + match goal with
      | |- context [viewer_loop env t times ?w0] =>
          destruct (IH t w0) as (evs & -> & Hn & _)
      end.
      eexists. split_and!.
      * cbn [length]. rewrite Nat.iter_succ_r. cbn [stage defaultPrim trace].
        rewrite !app_assoc_events. reflexivity.
      * simpl. by rewrite Hn.
      * simpl. by rewrite Eq.
    + match goal with
      | |- context [viewer_loop env last times ?w0] =>
          destruct (IH last w0) as (evs & -> & Hn & Hquiet)
      end.
      eexists. split_and!.
      * cbn [length]. rewrite Nat.iter_succ_r. cbn [stage defaultPrim trace].
        rewrite !app_assoc_events. reflexivity.
      * simpl. by rewrite Hn.
      * simpl. rewrite Eq. simpl. intros H. by rewrite Hquiet.
Qed.

(** X20.  The viewer loop calls the application's update once per
    iteration, whether it prints the reminder or not; it returns when the
    window is closed, with the default prim as it was. *)
Theorem viewer_loop_updates_once_per_frame
    (env : Env) (last_print_time : Q) (times : list Q) (w : World) :
  ∃ evs,
    viewer_loop env last_print_time times w
    = (Return tt,
       mkWorld (Nat.iter (length times) (app_update env) (stage w))
         (defaultPrim w) (trace w ++ evs)) ∧
    length (List.filter is_AppUpdate evs) = length times.
Proof.
  destruct (viewer_loop_events env times last_print_time w)
    as (evs & H & Hn & _).
  by exists evs.
Qed.

(** X21.  The reminder is throttled: as long as less than two seconds have
    passed since the loop was entered, the loop prints nothing and only
    updates the application. *)
Theorem viewer_loop_quiet_within_interval
    (env : Env) (last_print_time : Q) (times : list Q) (w : World) :
  forallb (λ t, negb (Qle_bool print_interval (t - last_print_time))) times
  = true →
  viewer_loop env last_print_time times w
  = (Return tt,
     mkWorld (Nat.iter (length times) (app_update env) (stage w))
       (defaultPrim w)
       (trace w ++ replicate (length times) AppUpdate)).
Proof.
  intros Hquiet.
  destruct (viewer_loop_events env times last_print_time w)
    as (evs & H & _ & Hevs).
  by rewrite H, (Hevs Hquiet).
Qed.

Lemma viewer_loop_quiet_within_interval_witness :
  forallb (λ t, negb (Qle_bool print_interval (t - 0))) [1; 3 # 2]%Q = true ∧
  viewer_loop (example_env true true) 0 [1; 3 # 2]%Q
    (mkWorld room None [])
  = (Return tt, mkWorld room None [AppUpdate; AppUpdate]).
Proof.
  split; [reflexivity|].
  exact (viewer_loop_quiet_within_interval (example_env true true) 0
           [1; 3 # 2]%Q (mkWorld room None []) eq_refl).
Defined.

(** ** What the verifier's result means *)

(** X22.  The verifier returns true exactly when every path of the first
    snapshot that is also in the second has equal records in both, field
    by field; one differing field of one common path makes it false. *)
Theorem verify_positions_unchanged_result (before after : Snapshot) :
  (verify_positions_unchanged before after).2 = true ↔
  Forall (λ item, ∀ r', dict_get item.1 after = Some r' →
                        TransformData_eqb item.2 r' = true) before.
Proof. apply verify_positions_unchanged_true. Qed.
